(** * moog_spriteworld: the select-move action space, the L2 reward task and
      the Gym wrapper, embedded from the Python sources.

    Numbers are IEEE binary64 values ([PrimFloat.float]), which is what a
    Python [float] and a NumPy [float64] are.  Python exceptions are the
    [Raise] results of an error monad.  Sprites are mutable objects that the
    environment state holds in per-layer lists; a sprite object is addressed
    by the layer it lives in and its index there, and a mutation rewrites the
    state at that address. *)

From Stdlib Require Import List String Bool ZArith Lia Floats.
Import ListNotations.
Local Open Scope string_scope.
Local Open Scope list_scope.

(** Decimal literals stand for the nearest binary64 value, as in Python. *)
#[local] Set Warnings "-inexact-float".

(** ** Python results *)

Inductive PyError : Type :=
| KeyError (key : string)
| IndexError
| ValueError (msg : string)
| AttributeError (msg : string).

Inductive result (A : Type) : Type :=
| Ok (a : A)
| Raise (e : PyError).

Arguments Ok {A} a.
Arguments Raise {A} e.

Definition bind {A B : Type} (m : result A) (k : A -> result B) : result B :=
  match m with
  | Ok a => k a
  | Raise e => Raise e
  end.

Notation "x <- m ;; k" := (bind m (fun x => k))
  (at level 61, m at next level, right associativity).

(** ** Two-component arrays (positions, velocities, motions) *)

Record Vec2 : Type := vec2 { vx : float; vy : float }.

(** NumPy's elementwise [a - b] and [a + b] on arrays of shape (2,). *)
Definition vsub (a b : Vec2) : Vec2 :=
  vec2 (PrimFloat.sub (vx a) (vx b)) (PrimFloat.sub (vy a) (vy b)).

Definition vadd (a b : Vec2) : Vec2 :=
  vec2 (PrimFloat.add (vx a) (vx b)) (PrimFloat.add (vy a) (vy b)).

(** [a / k] and [a * k] for an array [a] and a scalar [k]. *)
Definition vdiv (a : Vec2) (k : float) : Vec2 :=
  vec2 (PrimFloat.div (vx a) k) (PrimFloat.div (vy a) k).

Definition vmul (a : Vec2) (k : float) : Vec2 :=
  vec2 (PrimFloat.mul (vx a) k) (PrimFloat.mul (vy a) k).

(** ** Sprites and the layered state *)

(** Modelled from the spec: the sprite class is defined outside the three
    source files.  A sprite exposes a position, a mutable velocity, a mass and
    a containment test over a 2D point; the test is a field here, so every
    shape the sprite library can build is covered. *)
Record Sprite : Type := mkSprite {
  position : Vec2;
  velocity : Vec2;
  mass : float;
  contains_point : Vec2 -> bool
}.

(** The assignment [sprite.velocity = v]. *)
Definition set_sprite_velocity (s : Sprite) (v : Vec2) : Sprite :=
  mkSprite (position s) v (mass s) (contains_point s).

(** The environment state: an ordered dict from layer name to the list of the
    sprites of that layer. *)
Definition State : Type := list (string * list Sprite).

(** [state[k]]: a missing key raises KeyError. *)
Fixpoint getitem (state : State) (k : string) : result (list Sprite) :=
  match state with
  | [] => Raise (KeyError k)
  | (k', sprites) :: rest =>
      if String.eqb k k' then Ok sprites else getitem rest k
  end.

(** A reference to a sprite object: its layer and its index in the layer. *)
Definition Ref : Type := (string * nat)%type.

Definition deref (state : State) (r : Ref) : option Sprite :=
  match getitem state (fst r) with
  | Ok sprites => nth_error sprites (snd r)
  | Raise _ => None
  end.

Fixpoint update_nth (i : nat) (f : Sprite -> Sprite) (l : list Sprite)
  : list Sprite :=
  match l, i with
  | [], _ => []
  | s :: tl, O => f s :: tl
  | s :: tl, S j => s :: update_nth j f tl
  end.

(** The state after [f] is applied to the object [r] refers to. *)
Fixpoint update_ref (state : State) (r : Ref) (f : Sprite -> Sprite) : State :=
  match state with
  | [] => []
  | (k, sprites) :: rest =>
      if String.eqb (fst r) k
      then (k, update_nth (snd r) f sprites) :: rest
      else (k, sprites) :: update_ref rest r f
  end.

(** The references to the sprites of one layer, in list order, each with the
    object it refers to. *)
Fixpoint enumerate (layer : string) (i : nat) (sprites : list Sprite)
  : list (Ref * Sprite) :=
  match sprites with
  | [] => []
  | s :: tl => ((layer, i), s) :: enumerate layer (S i) tl
  end.

(** A layers argument of a constructor: one name, or a list or tuple of
    names ([isinstance(layers, (list, tuple))]). *)
Inductive LayersArg : Type :=
| OneLayer (name : string)
| Layers (names : list string).

Module select_move.

(** The four components of an action array of shape (4,). *)
Record Action : Type := mkAction {
  first_x : float;
  first_y : float;
  second_x : float;
  second_y : float
}.

(** [action[:2]] and [action[2:]]. *)
Definition slice_to_2 (a : Action) : Vec2 := vec2 (first_x a) (first_y a).
Definition slice_from_2 (a : Action) : Vec2 := vec2 (second_x a) (second_y a).

Definition action_add (a n : Action) : Action :=
  mkAction (PrimFloat.add (first_x a) (first_x n))
           (PrimFloat.add (first_y a) (first_y n))
           (PrimFloat.add (second_x a) (second_x n))
           (PrimFloat.add (second_y a) (second_y n)).

(** What [noise_scale] can be bound to: [None], a Python number, a Python
    list or tuple of numbers, or a NumPy array of numbers. *)
Inductive NoiseScale : Type :=
| PyNone
| PyScalar (s : float)
| PyList (l : list float)
| NdArray (l : list float).

(** Python's truth value of a float: NaN and every non-zero number are true. *)
Definition float_truth (f : float) : bool := negb (PrimFloat.eqb f 0%float).

(** The truth value that [if self._noise_scale:] takes.  An array of more than
    one element has none: NumPy raises ValueError. *)
Definition truth (n : NoiseScale) : result bool :=
  match n with
  | PyNone => Ok false
  | PyScalar s => Ok (float_truth s)
  | PyList l => Ok (negb (Nat.eqb (List.length l) 0))
  | NdArray [] => Ok false
  | NdArray [s] => Ok (float_truth s)
  | NdArray (_ :: _ :: _) =>
      Raise (ValueError "The truth value of an array with more than one element is ambiguous")
  end.

Record SelectMove : Type := mkSelectMove {
  _scale : float;
  _motion_cost : float;
  _noise_scale : NoiseScale;
  _instant_move : bool;
  _action_layers : list string
}.

Definition init (action_layers : LayersArg) (scale motion_cost : float)
  (noise_scale : NoiseScale) (instant_move : bool) : SelectMove :=
  mkSelectMove scale motion_cost noise_scale instant_move
    match action_layers with
    | OneLayer name => [name]
    | Layers names => names
    end.

Definition get_motion (self : SelectMove) (action : Vec2) (sprite : Sprite)
  : Vec2 :=
  vsub action (position sprite).

Section Step.

(** [np.random.normal(loc=0.0, scale=s, size=(4,))]: the sample the global
    generator hands out, or the exception NumPy raises for a scale it
    rejects.  Nothing is assumed about it. *)
Variable normal : NoiseScale -> result Action.

Definition apply_noise_to_action (self : SelectMove) (action : Action)
  : result Action :=
  b <- truth (_noise_scale self) ;;
  if b
  then noise <- normal (_noise_scale self) ;; Ok (action_add action noise)
  else Ok action.

(** [for sprite in sprites: if sprite.contains_point(position): return sprite],
    [None] when the loop ends. *)
Fixpoint first_containing (position : Vec2) (sprites : list (Ref * Sprite))
  : option (Ref * Sprite) :=
  match sprites with
  | [] => None
  | sprite :: rest =>
      if contains_point (snd sprite) position
      then Some sprite
      else first_containing position rest
  end.

Definition get_sprite_from_position (position : Vec2)
  (sprites : list (Ref * Sprite)) : option (Ref * Sprite) :=
  first_containing position (rev sprites).

(** The loop of [step] that fills [sprites]: the sprites of every action
    layer, layer after layer. *)
Fixpoint collect (state : State) (layers : list string)
  : result (list (Ref * Sprite)) :=
  match layers with
  | [] => Ok []
  | action_layer :: rest =>
      layer <- getitem state action_layer ;;
      sprites <- collect state rest ;;
      Ok (enumerate action_layer 0 layer ++ sprites)
  end.

(** [step] returns nothing; its result here is the state it leaves behind. *)
Definition step (self : SelectMove) (state : State) (action : Action)
  : result State :=
  noised_action <- apply_noise_to_action self action ;;
  let position := slice_to_2 noised_action in
  sprites <- collect state (_action_layers self) ;;
  match get_sprite_from_position position sprites with
  | Some (r, clicked_sprite) =>
      let motion := get_motion self (slice_from_2 noised_action) clicked_sprite in
      let dv := vmul (vdiv motion (mass clicked_sprite)) (_scale self) in
      if negb (_instant_move self)
      then Ok (update_ref state r
                 (fun s => set_sprite_velocity s (vadd (velocity s) dv)))
      else Ok (update_ref state r (fun s => set_sprite_velocity s dv))
  | None => Ok state
  end.

(** *** The selection *)

(** No sprite of the pool contains the point. *)
Definition misses (position : Vec2) (sprites : list (Ref * Sprite)) : Prop :=
  Forall (fun x => contains_point (snd x) position = false) sprites.

(** [action] clicks on the sprite object [r]: the scan of [step] returns it. *)
Definition selects (self : SelectMove) (state : State) (position : Vec2)
  (r : Ref) : Prop :=
  exists sprites s,
    collect state (_action_layers self) = Ok sprites /\
    get_sprite_from_position position sprites = Some (r, s).

(** The motion contribution [(motion / sprite.mass) * self._scale] of a click
    with second point [t] on a sprite at [p] with mass [m]. *)
Definition contribution (self : SelectMove) (t p : Vec2) (m : float) : Vec2 :=
  vmul (vdiv (vsub t p) m) (_scale self).

Lemma first_containing_some position sprites x :
  first_containing position sprites = Some x <->
  exists pre post,
    sprites = pre ++ x :: post /\
    contains_point (snd x) position = true /\
    misses position pre.
Proof.
  unfold misses. induction sprites as [|y tl IH]; simpl.
  - split; [discriminate|]. intros (pre & post & H & _). now destruct pre.
  - destruct (contains_point (snd y) position) eqn:Hy.
    + split.
      * intros [= <-]. exists [], tl. repeat split; auto.
      * intros (pre & post & H & Hx & Hpre). destruct pre as [|z pre].
        -- now injection H as -> _.
        -- injection H as -> _. inversion Hpre; subst. congruence.
    + rewrite IH. split.
      * intros (pre & post & -> & Hx & Hpre). exists (y :: pre), post.
        repeat split; auto.
      * intros (pre & post & H & Hx & Hpre). destruct pre as [|z pre].
        -- injection H as -> _. congruence.
        -- injection H as -> ->. inversion Hpre; subst. eauto.
Qed.

Lemma first_containing_none position sprites :
  first_containing position sprites = None <-> misses position sprites.
Proof.
  unfold misses. induction sprites as [|y tl IH]; simpl.
  - split; auto.
  - destruct (contains_point (snd y) position) eqn:Hy.
    + split; [discriminate|]. intros H. inversion H; subst. congruence.
    + rewrite IH. split; [auto|]. intros H. now inversion H.
Qed.

Lemma misses_rev position sprites :
  misses position (rev sprites) <-> misses position sprites.
Proof.
  unfold misses. rewrite !Forall_forall. split; intros H x Hx; apply H.
  - now apply in_rev in Hx.
  - now apply in_rev.
Qed.

(** The reverse scan returns the last sprite of the pool that contains the
    point. *)
Lemma get_sprite_from_position_some position sprites x :
  get_sprite_from_position position sprites = Some x <->
  exists pre post,
    sprites = pre ++ x :: post /\
    contains_point (snd x) position = true /\
    misses position post.
Proof.
  unfold get_sprite_from_position. rewrite first_containing_some. split.
  - intros (pre & post & H & Hx & Hpre). exists (rev post), (rev pre).
    repeat split; auto.
    + rewrite <- (rev_involutive sprites), H, rev_app_distr. simpl.
      now rewrite <- app_assoc.
    + now apply misses_rev.
  - intros (pre & post & -> & Hx & Hpost). exists (rev post), (rev pre).
    repeat split; auto.
    + rewrite rev_app_distr. simpl. now rewrite <- app_assoc.
    + now apply misses_rev.
Qed.

Lemma get_sprite_from_position_none position sprites :
  get_sprite_from_position position sprites = None <-> misses position sprites.
Proof.
  unfold get_sprite_from_position.
  now rewrite first_containing_none, misses_rev.
Qed.

(** *** References into the state *)

(** The layers of a state and how many sprites each holds. *)
Definition layout (state : State) : list (string * nat) :=
  map (fun kv => (fst kv, List.length (snd kv))) state.

Lemma update_nth_length i f l : List.length (update_nth i f l) = List.length l.
Proof.
  revert i. induction l as [|s tl IH]; intros [|j]; simpl; auto.
Qed.

Lemma nth_error_update_nth_same i f l :
  nth_error (update_nth i f l) i = option_map f (nth_error l i).
Proof.
  revert i. induction l as [|s tl IH]; intros [|j]; simpl; auto.
Qed.

Lemma nth_error_update_nth_other i j f l :
  i <> j -> nth_error (update_nth i f l) j = nth_error l j.
Proof.
  revert i j. induction l as [|s tl IH]; intros [|i] [|j] H; simpl;
    try congruence; auto.
Qed.

Lemma layout_update_ref state r f : layout (update_ref state r f) = layout state.
Proof.
  induction state as [|[k sprites] rest IH]; simpl; auto.
  destruct (String.eqb (fst r) k); simpl.
  - now rewrite update_nth_length.
  - now rewrite IH.
Qed.

Lemma getitem_update_ref state r f k :
  getitem (update_ref state r f) k =
  if String.eqb k (fst r)
  then l <- getitem state k ;; Ok (update_nth (snd r) f l)
  else getitem state k.
Proof.
  induction state as [|[k' sprites] rest IH]; simpl.
  - now destruct (String.eqb k (fst r)).
  - destruct (String.eqb_spec (fst r) k') as [E|E]; simpl.
    + subst k'. destruct (String.eqb_spec k (fst r)); simpl; auto.
    + destruct (String.eqb_spec k k') as [E'|E']; simpl.
      * subst k'. destruct (String.eqb_spec k (fst r)); congruence.
      * apply IH.
Qed.

Lemma deref_update_ref_same state r f :
  deref (update_ref state r f) r = option_map f (deref state r).
Proof.
  unfold deref. rewrite getitem_update_ref, String.eqb_refl.
  destruct (getitem state (fst r)); simpl; auto.
  apply nth_error_update_nth_same.
Qed.

Lemma deref_update_ref_other state r r' f :
  r' <> r -> deref (update_ref state r f) r' = deref state r'.
Proof.
  intros H. unfold deref. rewrite getitem_update_ref.
  destruct (String.eqb_spec (fst r') (fst r)) as [E|E]; auto.
  destruct (getitem state (fst r')); simpl; auto.
  apply nth_error_update_nth_other. intros E'. apply H.
  destruct r, r'; simpl in *. congruence.
Qed.

Lemma enumerate_snd layer i l : map snd (enumerate layer i l) = l.
Proof.
  revert i. induction l as [|s tl IH]; intros i; simpl; auto.
  now rewrite IH.
Qed.

Lemma enumerate_in layer i l r s :
  In (r, s) (enumerate layer i l) ->
  fst r = layer /\ i <= snd r /\ nth_error l (snd r - i) = Some s.
Proof.
  revert i. induction l as [|a tl IH]; intros i; simpl; [tauto|].
  intros [[= <- <-]|H]; simpl.
  - rewrite Nat.sub_diag. auto.
  - destruct (IH _ H) as (H1 & H2 & H3). repeat split; auto; [lia|].
    replace (snd r - i) with (S (snd r - S i)) by lia. exact H3.
Qed.

(** Every entry of the pool is a live reference with the object it denotes. *)
Lemma collect_deref state layers sprites r s :
  collect state layers = Ok sprites ->
  In (r, s) sprites -> deref state r = Some s.
Proof.
  revert sprites. induction layers as [|k rest IH]; simpl; intros sprites.
  - intros [= <-] [].
  - destruct (getitem state k) as [l|] eqn:Hk; simpl; [|discriminate].
    destruct (collect state rest) as [tl|]; simpl; [|discriminate].
    intros [= <-] H. apply in_app_or in H as [H|H]; eauto.
    apply enumerate_in in H as (H1 & _ & H3). unfold deref.
    rewrite H1, Hk. now rewrite Nat.sub_0_r in H3.
Qed.

(** The pool is the concatenation of the configured layers, in configured
    order, each in state order. *)
Lemma collect_flat state layers lists :
  Forall2 (fun k l => getitem state k = Ok l) layers lists ->
  exists sprites,
    collect state layers = Ok sprites /\ map snd sprites = List.concat lists.
Proof.
  induction 1 as [|k l layers lists Hk _ (tl & Htl & Hflat)]; simpl.
  - now exists [].
  - rewrite Hk, Htl. simpl. eexists. split; [reflexivity|].
    now rewrite map_app, enumerate_snd, Hflat.
Qed.

(** *** What one call of [step] does *)

Lemma apply_noise_none self action :
  _noise_scale self = PyNone -> apply_noise_to_action self action = Ok action.
Proof.
  intros H. unfold apply_noise_to_action. now rewrite H.
Qed.

(** The velocity a click leaves on the clicked sprite. *)
Definition clicked_velocity (self : SelectMove) (noised_action : Action)
  (s : Sprite) : Vec2 :=
  let dv := contribution self (slice_from_2 noised_action) (position s) (mass s) in
  if _instant_move self then dv else vadd (velocity s) dv.

Lemma step_hit self state action noised_action sprites r s :
  apply_noise_to_action self action = Ok noised_action ->
  collect state (_action_layers self) = Ok sprites ->
  get_sprite_from_position (slice_to_2 noised_action) sprites = Some (r, s) ->
  exists state',
    step self state action = Ok state' /\
    layout state' = layout state /\
    deref state' r =
      Some (set_sprite_velocity s (clicked_velocity self noised_action s)) /\
    forall r', r' <> r -> deref state' r' = deref state r'.
Proof.
  intros Hn Hc Hg.
  assert (Hr : deref state r = Some s).
  { apply get_sprite_from_position_some in Hg as (pre & post & E & _).
    apply (collect_deref _ _ _ _ _ Hc). rewrite E. apply in_elt. }
  unfold step, clicked_velocity, contribution, get_motion.
  rewrite Hn. simpl. rewrite Hc. simpl. rewrite Hg.
  destruct (_instant_move self); simpl; eexists; (split; [reflexivity|]);
    rewrite layout_update_ref, deref_update_ref_same, Hr; simpl;
    repeat split; auto; intros; now apply deref_update_ref_other.
Qed.

Lemma step_miss self state action noised_action sprites :
  apply_noise_to_action self action = Ok noised_action ->
  collect state (_action_layers self) = Ok sprites ->
  misses (slice_to_2 noised_action) sprites ->
  step self state action = Ok state.
Proof.
  intros Hn Hc Hm. apply get_sprite_from_position_none in Hm.
  unfold step. rewrite Hn. simpl. rewrite Hc. simpl. now rewrite Hm.
Qed.

(** A call that returns went through the noise and the collection. *)
Lemma step_ok_inv self state action state' :
  step self state action = Ok state' ->
  exists noised_action sprites,
    apply_noise_to_action self action = Ok noised_action /\
    collect state (_action_layers self) = Ok sprites.
Proof.
  unfold step. destruct (apply_noise_to_action self action); simpl;
    [|discriminate].
  destruct (collect state (_action_layers self)); simpl; [|discriminate].
  eauto.
Qed.

(** *** The claims about [step] *)

(** C1 (as amended).  With no noise configured and [instant_move=True], a
    click whose selection position is contained in a sprite of the pool, and
    in no sprite that comes later in the pool, sets that sprite's velocity to
    exactly [(t - p) / m * scale], where [t] is the last two components of the
    action, [p] the sprite's position and [m] its mass; nothing else of the
    sprite changes.  In particular, with layers ["agent"], one sprite at
    (0.5, 0.5) with mass 1 that contains its own position, and the action
    [0.5, 0.5, 0.5, 1.0], the velocity becomes [(0.0, 0.5) * scale] for every
    scale. *)
Theorem step_instant_move_sets_velocity :
  (forall self state action pre r s post,
     _noise_scale self = PyNone ->
     _instant_move self = true ->
     collect state (_action_layers self) = Ok (pre ++ (r, s) :: post) ->
     contains_point s (slice_to_2 action) = true ->
     misses (slice_to_2 action) post ->
     exists state',
       step self state action = Ok state' /\
       deref state' r =
         Some (set_sprite_velocity s
                 (vmul (vdiv (vsub (slice_from_2 action) (position s)) (mass s))
                       (_scale self)))) /\
  (forall scale motion_cost v0 shape,
     shape (vec2 0.5 0.5) = true ->
     step (init (Layers ["agent"]) scale motion_cost PyNone true)
          [("agent", [mkSprite (vec2 0.5 0.5) v0 1 shape])]
          (mkAction 0.5 0.5 0.5 1) =
     Ok [("agent", [mkSprite (vec2 0.5 0.5) (vmul (vec2 0 0.5) scale) 1 shape])]).
Proof.
  split.
  - intros self state action pre r s post Hnoise Hinst Hc Hin Hlast.
    destruct (step_hit self state action action _ r s
                (apply_noise_none self action Hnoise) Hc)
      as (state' & Hstep & _ & Hr & _).
    + apply get_sprite_from_position_some. now exists pre, post.
    + exists state'. split; [exact Hstep|].
      rewrite Hr. unfold clicked_velocity, contribution. now rewrite Hinst.
  - intros scale motion_cost v0 shape Hshape.
    unfold step, apply_noise_to_action, get_sprite_from_position. simpl.
    unfold slice_to_2. simpl. rewrite Hshape. reflexivity.
Qed.

(** C2.  A click that no sprite of the configured layers contains mutates
    nothing: [step] leaves the state as it was.  Every call that returns keeps
    the layers and the number of sprites in each, changes at most one sprite
    object, and changes nothing but its velocity. *)
Theorem step_frame self state action :
  (forall noised_action sprites,
     apply_noise_to_action self action = Ok noised_action ->
     collect state (_action_layers self) = Ok sprites ->
     misses (slice_to_2 noised_action) sprites ->
     step self state action = Ok state) /\
  (forall state',
     step self state action = Ok state' ->
     layout state' = layout state /\
     (exists r, forall r', r' <> r -> deref state' r' = deref state r') /\
     (forall r' s',
        deref state' r' = Some s' ->
        exists s,
          deref state r' = Some s /\ s' = set_sprite_velocity s (velocity s'))).
Proof.
  split; [intros; eapply step_miss; eauto|].
  intros state' Hstep.
  destruct (step_ok_inv _ _ _ _ Hstep) as (noised & sprites & Hn & Hc).
  destruct (get_sprite_from_position (slice_to_2 noised) sprites)
    as [[r s]|] eqn:Hg.
  - destruct (step_hit _ _ _ _ _ _ _ Hn Hc Hg) as (st & Hst & Hl & Hr & Ho).
    rewrite Hstep in Hst. injection Hst as <-.
    split; [exact Hl|]. split; [now exists r|].
    intros r' s' H'.
    assert (Hd : {r' = r} + {r' <> r}).
    { decide equality; [apply Nat.eq_dec | apply string_dec]. }
    destruct Hd as [->|Hne].
    + rewrite Hr in H'. injection H' as <-. exists s. split; auto.
      apply get_sprite_from_position_some in Hg as (pre & post & E & _).
      apply (collect_deref _ _ _ _ _ Hc). rewrite E. apply in_elt.
    + rewrite (Ho _ Hne) in H'. exists s'. split; auto. now destruct s'.
  - apply get_sprite_from_position_none in Hg.
    rewrite (step_miss _ _ _ _ _ Hn Hc Hg) in Hstep. injection Hstep as <-.
    split; [reflexivity|]. split; [now exists ("", 0)|].
    intros r' s' H'. exists s'. split; auto. now destruct s'.
Qed.

(** C3.  The pool [step] scans is the concatenation of the configured layers
    in configured order, each layer in state order.  When some sprite of that
    flat sequence contains the (noised) selection position, the sprite that is
    selected and mutated is the one that comes latest in the sequence among
    those that contain it; when none does, no sprite is selected and the state
    stays as it was. *)
Theorem step_selects_latest self state action noised_action lists :
  apply_noise_to_action self action = Ok noised_action ->
  Forall2 (fun k l => getitem state k = Ok l) (_action_layers self) lists ->
  exists sprites,
    collect state (_action_layers self) = Ok sprites /\
    map snd sprites = List.concat lists /\
    (forall pre s post,
       List.concat lists = pre ++ s :: post ->
       contains_point s (slice_to_2 noised_action) = true ->
       Forall (fun x => contains_point x (slice_to_2 noised_action) = false)
         post ->
       exists r state',
         nth_error sprites (List.length pre) = Some (r, s) /\
         get_sprite_from_position (slice_to_2 noised_action) sprites
           = Some (r, s) /\
         deref state r = Some s /\
         step self state action = Ok state' /\
         deref state' r =
           Some (set_sprite_velocity s (clicked_velocity self noised_action s)) /\
         forall r', r' <> r -> deref state' r' = deref state r') /\
    (Forall (fun x => contains_point x (slice_to_2 noised_action) = false)
       (List.concat lists) ->
     get_sprite_from_position (slice_to_2 noised_action) sprites = None /\
     step self state action = Ok state).
Proof.
  intros Hn Hl. destruct (collect_flat _ _ _ Hl) as (sprites & Hc & Hflat).
  exists sprites. split; [exact Hc|]. split; [exact Hflat|]. split.
  - intros pre s post E Hs Hpost. rewrite <- Hflat in E.
    apply map_eq_app in E as (pre' & tl & -> & <- & E).
    apply map_eq_cons in E as ([r s'] & post' & -> & Es & <-).
    simpl in Es. subst s'.
    assert (Hg : get_sprite_from_position (slice_to_2 noised_action)
                   (pre' ++ (r, s) :: post') = Some (r, s)).
    { apply get_sprite_from_position_some. exists pre', post'.
      repeat split; auto. unfold misses. now rewrite Forall_map in Hpost. }
    destruct (step_hit _ _ _ _ _ _ _ Hn Hc Hg) as (state' & Hst & _ & Hr & Ho).
    exists r, state'. repeat split; auto.
    + rewrite length_map, nth_error_app2, Nat.sub_diag; auto.
    + apply (collect_deref _ _ _ _ _ Hc). apply in_elt.
  - intros Hnone. rewrite <- Hflat, Forall_map in Hnone. split.
    + now apply get_sprite_from_position_none.
    + eapply step_miss; eauto.
Qed.

(** C4.  With [instant_move=False] and no noise configured, two consecutive
    calls whose clicks both select the same sprite leave it with the velocity
    it had before the first click, plus the contribution of the first click,
    plus the contribution of the second, each contribution being
    [(t_i - p_i) / m * scale] with [p_i] the sprite's position when click [i]
    is made. *)
Theorem consecutive_clicks_accumulate self state a1 a2 r s0 :
  _noise_scale self = PyNone ->
  _instant_move self = false ->
  deref state r = Some s0 ->
  selects self state (slice_to_2 a1) r ->
  exists state1 s1,
    step self state a1 = Ok state1 /\
    deref state1 r = Some s1 /\
    (selects self state1 (slice_to_2 a2) r ->
     exists state2 s2,
       step self state1 a2 = Ok state2 /\
       deref state2 r = Some s2 /\
       velocity s2 =
         vadd (vadd (velocity s0)
                 (contribution self (slice_from_2 a1) (position s0) (mass s0)))
              (contribution self (slice_from_2 a2) (position s1) (mass s1))).
Proof.
  intros Hnoise Hinst Hr0 (sprites & s & Hc & Hg).
  assert (Hs : deref state r = Some s).
  { apply get_sprite_from_position_some in Hg as (pre & post & E & _).
    apply (collect_deref _ _ _ _ _ Hc). rewrite E. apply in_elt. }
  rewrite Hr0 in Hs. injection Hs as <-.
  destruct (step_hit _ _ _ _ _ _ _ (apply_noise_none self a1 Hnoise) Hc Hg)
    as (state1 & Hst1 & _ & Hr1 & _).
  exists state1, (set_sprite_velocity s0 (clicked_velocity self a1 s0)).
  split; [exact Hst1|]. split; [exact Hr1|].
  intros (sprites1 & s1 & Hc1 & Hg1).
  assert (Hs1 : deref state1 r = Some s1).
  { apply get_sprite_from_position_some in Hg1 as (pre & post & E & _).
    apply (collect_deref _ _ _ _ _ Hc1). rewrite E. apply in_elt. }
  rewrite Hr1 in Hs1. injection Hs1 as <-.
  destruct (step_hit _ _ _ _ _ _ _ (apply_noise_none self a2 Hnoise) Hc1 Hg1)
    as (state2 & Hst2 & _ & Hr2 & _).
  exists state2. eexists. split; [exact Hst2|]. split; [exact Hr2|].
  unfold clicked_velocity. rewrite Hinst. reflexivity.
Qed.

(** C5 (the code at the failing input).  When [noise_scale] is a NumPy array
    of the four per-component standard deviations, [step] raises ValueError at
    [if self._noise_scale:], before any noise is drawn, whatever the state and
    the action. *)
Theorem step_array_noise_scale_raises
  (scale motion_cost : float) (instant_move : bool) (layers : list string)
  (state : State) (action : Action) (a b c d : float) :
  step (mkSelectMove scale motion_cost (NdArray [a; b; c; d]) instant_move layers)
       state action =
  Raise (ValueError "The truth value of an array with more than one element is ambiguous").
Proof.
  unfold step, apply_noise_to_action. simpl. reflexivity.
Qed.

(** When the scale has a truth value and it is true, the action [step] uses is
    the sum of the action and the drawn noise, component by component, with
    no clamping. *)
Lemma apply_noise_adds self action noise :
  truth (_noise_scale self) = Ok true ->
  normal (_noise_scale self) = Ok noise ->
  apply_noise_to_action self action = Ok (action_add action noise).
Proof.
  intros Ht Hn. unfold apply_noise_to_action. now rewrite Ht, Hn.
Qed.

End Step.

(** *** Concrete runs *)

Definition agent_sprite (v0 : Vec2) : Sprite :=
  mkSprite (vec2 0.5 0.5) v0 1 (fun _ => true).

Definition no_draw : NoiseScale -> result Action :=
  fun _ => Raise (ValueError "no sample").

(** C1 as stated fails when sprites overlap: the click is contained in the
    first sprite of layer "agent", but the second one contains it too and is
    scanned first, so the first sprite keeps its velocity (0, 0) instead of
    getting (0, 0.5). *)
Lemma step_instant_move_overlap_counterexample :
  let below := mkSprite (vec2 0.5 0.5) (vec2 0 0) 1 (fun _ => true) in
  let above := mkSprite (vec2 0.25 0.25) (vec2 0 0) 1 (fun _ => true) in
  let state := [("agent", [below; above])] in
  let self := init (Layers ["agent"]) 1 0 PyNone true in
  let action := mkAction 0.5 0.5 0.5 1 in
  deref state ("agent", 0) = Some below /\
  contains_point below (slice_to_2 action) = true /\
  exists state',
    step no_draw self state action = Ok state' /\
    deref state' ("agent", 0) = Some below /\
    velocity below <>
      vmul (vdiv (vsub (slice_from_2 action) (position below)) (mass below))
           (_scale self).
Proof.
  cbv zeta. split; [reflexivity|]. split; [reflexivity|].
  eexists. split; [reflexivity|]. split; [reflexivity|].
  intros H. apply (f_equal (fun v => PrimFloat.eqb (vy v) 0)) in H.
  vm_compute in H. discriminate.
Qed.

Lemma step_instant_move_sets_velocity_witness :
  exists state',
    step no_draw (init (Layers ["agent"]) 2 0 PyNone true)
      [("agent", [agent_sprite (vec2 0 0)])] (mkAction 0.5 0.5 0.5 1)
      = Ok state' /\
    deref state' ("agent", 0) = Some (agent_sprite (vec2 0 1)).
Proof.
  exact (proj1 (step_instant_move_sets_velocity no_draw)
           (init (Layers ["agent"]) 2 0 PyNone true)
           [("agent", [agent_sprite (vec2 0 0)])] (mkAction 0.5 0.5 0.5 1)
           [] ("agent", 0) (agent_sprite (vec2 0 0)) []
           eq_refl eq_refl eq_refl eq_refl (Forall_nil _)).
Defined.

Definition left_half (p : Vec2) : bool := PrimFloat.ltb (vx p) 0.5.

Definition upper_right (p : Vec2) : bool :=
  PrimFloat.ltb 0.5 (vx p) && PrimFloat.ltb 0.5 (vy p).

Definition agent_0 : Sprite := mkSprite (vec2 0.25 0.25) (vec2 0 0) 1 left_half.
Definition agent_1 : Sprite := mkSprite (vec2 0.25 0.5) (vec2 0 0) 4 left_half.
Definition prey_0 : Sprite := mkSprite (vec2 0.75 0.75) (vec2 0 0) 2 upper_right.

Definition layered : State :=
  [("prey", [prey_0]); ("agent", [agent_0; agent_1])].

Definition accumulating : SelectMove :=
  init (Layers ["agent"; "prey"]) 1 0 PyNone false.

Lemma step_frame_witness :
  step no_draw accumulating layered (mkAction 0.75 0.25 0.5 0.5) = Ok layered.
Proof.
  apply (proj1 (step_frame no_draw accumulating layered
                  (mkAction 0.75 0.25 0.5 0.5))
           (mkAction 0.75 0.25 0.5 0.5)
           [(("agent", 0), agent_0); (("agent", 1), agent_1);
            (("prey", 0), prey_0)]
           eq_refl eq_refl).
  repeat (apply Forall_cons; [reflexivity|]). apply Forall_nil.
Defined.

Lemma step_selects_latest_witness :
  exists r state',
    get_sprite_from_position (vec2 0.25 0.25)
      [(("agent", 0), agent_0); (("agent", 1), agent_1); (("prey", 0), prey_0)]
      = Some (r, agent_1) /\
    step no_draw accumulating layered (mkAction 0.25 0.25 0.5 0.5) = Ok state' /\
    deref state' r = Some (set_sprite_velocity agent_1 (vec2 0.0625 0)).
Proof.
  destruct (step_selects_latest no_draw accumulating layered
              (mkAction 0.25 0.25 0.5 0.5) (mkAction 0.25 0.25 0.5 0.5)
              [[agent_0; agent_1]; [prey_0]] eq_refl)
    as (sprites & Hc & _ & Hsome & _).
  - repeat (apply Forall2_cons; [reflexivity|]). apply Forall2_nil.
  - destruct (Hsome [agent_0] agent_1 [prey_0] eq_refl eq_refl)
      as (r & state' & _ & Hg & _ & Hstep & Hr & _).
    + repeat (apply Forall_cons; [reflexivity|]). apply Forall_nil.
    + vm_compute in Hc. injection Hc as <-.
      exists r, state'. split; [exact Hg|]. split; [exact Hstep|exact Hr].
Defined.

Lemma consecutive_clicks_accumulate_witness :
  exists state1 state2 s2,
    step no_draw accumulating layered (mkAction 0.25 0.25 0.5 0.5) = Ok state1 /\
    step no_draw accumulating state1 (mkAction 0.25 0.25 0.25 1) = Ok state2 /\
    deref state2 ("agent", 1) = Some s2 /\
    velocity s2 = vec2 0.0625 0.125.
Proof.
  destruct (consecutive_clicks_accumulate no_draw accumulating layered
              (mkAction 0.25 0.25 0.5 0.5) (mkAction 0.25 0.25 0.25 1)
              ("agent", 1) agent_1 eq_refl eq_refl eq_refl)
    as (state1 & s1 & Hstep1 & Hs1 & Hsecond).
  - do 2 eexists. split; reflexivity.
  - pose proof Hstep1 as E. vm_compute in E. injection E as E. subst state1.
    vm_compute in Hs1. injection Hs1 as <-.
    destruct Hsecond as (state2 & s2 & Hstep2 & Hs2 & Hv).
    + do 2 eexists. split; reflexivity.
    + eexists. exists state2, s2. split; [exact Hstep1|].
      split; [exact Hstep2|]. split; [exact Hs2|exact Hv].
Defined.

(** ** Further properties of [step] *)

Definition ref_eqb (a b : Ref) : bool :=
  String.eqb (fst a) (fst b) && Nat.eqb (snd a) (snd b).

(** What an update of the object [r0] makes of a pool entry. *)
Definition retarget (r0 : Ref) (f : Sprite -> Sprite) (x : Ref * Sprite)
  : Ref * Sprite :=
  (fst x, if ref_eqb (fst x) r0 then f (snd x) else snd x).

(** The same object with no noise configured. *)
Definition without_noise (self : SelectMove) : SelectMove :=
  mkSelectMove (_scale self) (_motion_cost self) PyNone (_instant_move self)
    (_action_layers self).

Section StepProperties.

Variable normal : NoiseScale -> result Action.

Lemma ref_eqb_refl r : ref_eqb r r = true.
Proof.
  unfold ref_eqb. now rewrite String.eqb_refl, Nat.eqb_refl.
Qed.




Lemma collect_layer state layers sprites r s :
  collect state layers = Ok sprites ->
  In (r, s) sprites -> In (fst r) layers.
Proof.
  revert sprites. induction layers as [|k rest IH]; simpl; intros sprites.
  - intros [= <-] [].
  - destruct (getitem state k) as [l|]; simpl; [|discriminate].
    destruct (collect state rest) as [tl|]; simpl; [|discriminate].
    intros [= <-] H. apply in_app_or in H as [H|H]; eauto.
    apply enumerate_in in H as (H1 & _). now left.
Qed.

(** The state a hit leaves, written out. *)
Lemma step_hit_state self state action noised_action sprites r s :
  apply_noise_to_action normal self action = Ok noised_action ->
  collect state (_action_layers self) = Ok sprites ->
  get_sprite_from_position (slice_to_2 noised_action) sprites = Some (r, s) ->
  step normal self state action =
  Ok (update_ref state r
        (fun s' =>
           set_sprite_velocity s'
             (if _instant_move self
              then contribution self (slice_from_2 noised_action)
                     (position s) (mass s)
              else vadd (velocity s')
                     (contribution self (slice_from_2 noised_action)
                        (position s) (mass s))))).
Proof.
  intros Hn Hc Hg. unfold step, contribution, get_motion.
  rewrite Hn. simpl. rewrite Hc. simpl. rewrite Hg.
  now destruct (_instant_move self).
Qed.

Lemma enumerate_retarget_below k f l : forall i j,
  j < i -> map (retarget (k, j) f) (enumerate k i l) = enumerate k i l.
Proof.
  induction l as [|a tl IH]; intros i j Hj; simpl; auto.
  rewrite (IH (S i) j) by lia. unfold retarget, ref_eqb. simpl.
  rewrite String.eqb_refl. simpl.
  destruct (Nat.eqb_spec i j); [lia|reflexivity].
Qed.

Lemma enumerate_update_nth k f l : forall i j,
  enumerate k i (update_nth j f l)
  = map (retarget (k, i + j) f) (enumerate k i l).
Proof.
  induction l as [|a tl IH]; intros i [|j]; simpl; auto.
  - rewrite Nat.add_0_r, enumerate_retarget_below by lia.
    unfold retarget. simpl. now rewrite ref_eqb_refl.
  - rewrite IH. replace (S i + j) with (i + S j) by lia.
    unfold retarget at 2, ref_eqb. simpl. rewrite String.eqb_refl. simpl.
    destruct (Nat.eqb_spec i (i + S j)); [lia|reflexivity].
Qed.

Lemma enumerate_retarget_other k r0 f l : forall i,
  k <> fst r0 -> map (retarget r0 f) (enumerate k i l) = enumerate k i l.
Proof.
  induction l as [|a tl IH]; intros i Hk; simpl; auto.
  rewrite IH by exact Hk. unfold retarget, ref_eqb. simpl.
  destruct (String.eqb_spec k (fst r0)); [contradiction|reflexivity].
Qed.

(** The pool of an updated state is the pool of the state with the updated
    object in the place of the old one, wherever it occurs. *)
Lemma collect_update_ref state r0 f layers :
  collect (update_ref state r0 f) layers
  = (sprites <- collect state layers ;; Ok (map (retarget r0 f) sprites)).
Proof.
  induction layers as [|k rest IH]; simpl; auto.
  rewrite getitem_update_ref, IH.
  destruct (getitem state k) as [l|e] eqn:Hk; simpl.
  - destruct (String.eqb_spec k (fst r0)) as [E|E]; simpl;
      destruct (collect state rest) as [tl|]; simpl; auto;
      rewrite map_app; do 2 f_equal.
    + rewrite (enumerate_update_nth k f l 0 (snd r0)). simpl.
      subst k. now destruct r0.
    + symmetry. now apply enumerate_retarget_other.
  - now destruct (String.eqb k (fst r0)).
Qed.

Lemma first_containing_map position g sprites :
  (forall x, contains_point (snd (g x)) = contains_point (snd x)) ->
  first_containing position (map g sprites)
  = option_map g (first_containing position sprites).
Proof.
  intros Hg. induction sprites as [|x tl IH]; simpl; auto.
  rewrite Hg. now destruct (contains_point (snd x) position).
Qed.

Lemma get_sprite_from_position_map position g sprites :
  (forall x, contains_point (snd (g x)) = contains_point (snd x)) ->
  get_sprite_from_position position (map g sprites)
  = option_map g (get_sprite_from_position position sprites).
Proof.
  intros Hg. unfold get_sprite_from_position.
  rewrite <- map_rev. now apply first_containing_map.
Qed.

Lemma retarget_contains r0 f :
  (forall s, contains_point (f s) = contains_point s) ->
  forall x, contains_point (snd (retarget r0 f x)) = contains_point (snd x).
Proof.
  intros Hf x. unfold retarget. simpl. now destruct (ref_eqb (fst x) r0).
Qed.

Lemma selects_update_ref self state r0 f position r :
  (forall s, contains_point (f s) = contains_point s) ->
  selects self (update_ref state r0 f) position r <->
  selects self state position r.
Proof.
  intros Hf. unfold selects. rewrite collect_update_ref. split.
  - intros (sprites' & s' & Hc & Hg).
    destruct (collect state (_action_layers self)) as [sprites|] eqn:Hc0;
      simpl in Hc; [|discriminate].
    injection Hc as <-.
    rewrite (get_sprite_from_position_map _ _ _ (retarget_contains r0 f Hf))
      in Hg.
    destruct (get_sprite_from_position position sprites) as [[r1 s1]|] eqn:Hg0;
      simpl in Hg; [|discriminate].
    injection Hg as <- _. now exists sprites, s1.
  - intros (sprites & s & Hc & Hg). rewrite Hc. simpl.
    do 2 eexists. split; [reflexivity|].
    rewrite (get_sprite_from_position_map _ _ _ (retarget_contains r0 f Hf)),
      Hg.
    reflexivity.
Qed.

Lemma update_nth_idem f l : forall i,
  (forall s, f (f s) = f s) ->
  update_nth i f (update_nth i f l) = update_nth i f l.
Proof.
  induction l as [|a tl IH]; intros [|i] Hf; simpl; auto.
  - now rewrite Hf.
  - now rewrite IH.
Qed.

Lemma update_ref_idem state r f :
  (forall s, f (f s) = f s) ->
  update_ref (update_ref state r f) r f = update_ref state r f.
Proof.
  intros Hf. induction state as [|[k l] rest IH]; simpl; auto.
  destruct (String.eqb (fst r) k) eqn:E; simpl; rewrite E.
  - now rewrite update_nth_idem.
  - now rewrite IH.
Qed.


(** X2.  With [instant_move=True] and no noise configured, repeating a click
    changes nothing more: the second call returns the state the first one
    left. *)
Theorem step_instant_move_idempotent self state action state1 :
  _noise_scale self = PyNone ->
  _instant_move self = true ->
  step normal self state action = Ok state1 ->
  step normal self state1 action = Ok state1.
Proof.
  intros Hnoise Hinst Hstep.
  pose proof (apply_noise_none normal self action Hnoise) as Hn.
  destruct (step_ok_inv _ _ _ _ _ Hstep) as (noised & sprites & Hn' & Hc).
  rewrite Hn in Hn'. injection Hn' as <-.
  destruct (get_sprite_from_position (slice_to_2 action) sprites)
    as [[r s]|] eqn:Hg.
  - rewrite (step_hit_state _ _ _ _ _ _ _ Hn Hc Hg), Hinst in Hstep.
    injection Hstep as <-.
    set (f := fun s' : Sprite =>
                set_sprite_velocity s'
                  (contribution self (slice_from_2 action) (position s) (mass s))).
    assert (Hc1 : collect (update_ref state r f) (_action_layers self)
                  = Ok (map (retarget r f) sprites))
      by (rewrite collect_update_ref, Hc; reflexivity).
    assert (Hg1 : get_sprite_from_position (slice_to_2 action)
                    (map (retarget r f) sprites) = Some (r, f s)).
    { rewrite get_sprite_from_position_map, Hg.
      - unfold retarget. simpl. now rewrite ref_eqb_refl.
      - now apply retarget_contains. }
    rewrite (step_hit_state _ _ _ _ _ _ _ Hn Hc1 Hg1), Hinst. simpl.
    f_equal. now apply update_ref_idem.
  - apply get_sprite_from_position_none in Hg.
    rewrite (step_miss _ _ _ _ _ _ Hn Hc Hg) in Hstep.
    injection Hstep as <-. eapply step_miss; eauto.
Qed.

(** X3.  A call of [step] never changes which sprite a click selects: in the
    state it leaves, every position selects the sprite it selected before. *)
Theorem step_preserves_selection self state action state' :
  step normal self state action = Ok state' ->
  forall position r,
    selects self state' position r <-> selects self state position r.
Proof.
  intros Hstep position r0.
  destruct (step_ok_inv _ _ _ _ _ Hstep) as (noised & sprites & Hn & Hc).
  destruct (get_sprite_from_position (slice_to_2 noised) sprites)
    as [[r s]|] eqn:Hg.
  - rewrite (step_hit_state _ _ _ _ _ _ _ Hn Hc Hg) in Hstep.
    injection Hstep as <-. now apply selects_update_ref.
  - apply get_sprite_from_position_none in Hg.
    rewrite (step_miss _ _ _ _ _ _ Hn Hc Hg) in Hstep.
    now injection Hstep as <-.
Qed.

(** X4.  Noise acts on [step] only through the action.  A scale whose truth
    value is false (None, 0.0, an empty list) makes [step] behave as with no
    noise configured, without a draw; a scale whose truth value is true makes
    it behave as the noise-free [step] on the sum of the action and the drawn
    sample; and an exception of the draw is the exception of [step]. *)
Theorem step_noise_perturbs_action self state action normal' :
  (truth (_noise_scale self) = Ok false ->
   step normal self state action
   = step normal' (without_noise self) state action) /\
  (forall noise,
     truth (_noise_scale self) = Ok true ->
     normal (_noise_scale self) = Ok noise ->
     step normal self state action
     = step normal' (without_noise self) state (action_add action noise)) /\
  (forall e,
     truth (_noise_scale self) = Ok true ->
     normal (_noise_scale self) = Raise e ->
     step normal self state action = Raise e).
Proof.
  unfold step, apply_noise_to_action. simpl. repeat split.
  - intros ->. reflexivity.
  - intros noise -> ->. reflexivity.
  - intros e -> ->. reflexivity.
Qed.

(** X5.  [step] never touches a sprite of a layer that is not listed in
    [action_layers]. *)
Theorem step_leaves_unlisted_layers self state action state' r' :
  step normal self state action = Ok state' ->
  ~ In (fst r') (_action_layers self) ->
  deref state' r' = deref state r'.
Proof.
  intros Hstep Hr'.
  destruct (step_ok_inv _ _ _ _ _ Hstep) as (noised & sprites & Hn & Hc).
  destruct (get_sprite_from_position (slice_to_2 noised) sprites)
    as [[r s]|] eqn:Hg.
  - destruct (step_hit _ _ _ _ _ _ _ _ Hn Hc Hg) as (st & Hst & _ & _ & Ho).
    rewrite Hstep in Hst. injection Hst as <-. apply Ho. intros ->.
    apply Hr'. apply get_sprite_from_position_some in Hg as (p1 & p2 & E & _).
    apply (collect_layer _ _ _ _ s Hc). rewrite E. apply in_elt.
  - apply get_sprite_from_position_none in Hg.
    rewrite (step_miss _ _ _ _ _ _ Hn Hc Hg) in Hstep.
    now injection Hstep as <-.
Qed.

End StepProperties.

Definition shift : NoiseScale -> result Action :=
  fun _ => Ok (mkAction 0.25 0 0 0).

Lemma step_noise_perturbs_action_witness :
  step shift (init (Layers ["agent"; "prey"]) 1 0 (PyScalar 0.5) false)
    layered (mkAction 0 0.25 0.5 0.5)
  = step no_draw accumulating layered (mkAction 0.25 0.25 0.5 0.5).
Proof.
  exact (proj1 (proj2 (step_noise_perturbs_action shift
                         (init (Layers ["agent"; "prey"]) 1 0 (PyScalar 0.5) false)
                         layered (mkAction 0 0.25 0.5 0.5) no_draw))
           (mkAction 0.25 0 0 0) eq_refl eq_refl).
Defined.

Definition instant : SelectMove :=
  init (Layers ["agent"; "prey"]) 1 0 PyNone true.


Lemma step_instant_move_idempotent_witness :
  exists state1,
    step no_draw instant layered (mkAction 0.25 0.25 0.5 0.5) = Ok state1 /\
    step no_draw instant state1 (mkAction 0.25 0.25 0.5 0.5) = Ok state1.
Proof.
  destruct (step no_draw instant layered (mkAction 0.25 0.25 0.5 0.5))
    as [state1|e] eqn:H; [|vm_compute in H; discriminate].
  exists state1. split; [reflexivity|].
  exact (step_instant_move_idempotent no_draw instant layered
           (mkAction 0.25 0.25 0.5 0.5) state1 eq_refl eq_refl H).
Defined.

Lemma step_preserves_selection_witness :
  exists state',
    step no_draw accumulating layered (mkAction 0.25 0.25 0.5 0.5) = Ok state' /\
    selects accumulating state' (vec2 0.25 0.25) ("agent", 1).
Proof.
  destruct (step no_draw accumulating layered (mkAction 0.25 0.25 0.5 0.5))
    as [state'|e] eqn:H; [|vm_compute in H; discriminate].
  exists state'. split; [reflexivity|].
  apply (proj2 (step_preserves_selection no_draw accumulating layered
                  (mkAction 0.25 0.25 0.5 0.5) state' H
                  (vec2 0.25 0.25) ("agent", 1))).
  do 2 eexists. split; reflexivity.
Defined.

Lemma step_leaves_unlisted_layers_witness :
  exists state',
    step no_draw (init (OneLayer "agent") 1 0 PyNone false) layered
      (mkAction 0.25 0.25 0.5 0.5) = Ok state' /\
    deref state' ("prey", 0) = Some prey_0.
Proof.
  destruct (step no_draw (init (OneLayer "agent") 1 0 PyNone false) layered
              (mkAction 0.25 0.25 0.5 0.5))
    as [state'|e] eqn:H; [|vm_compute in H; discriminate].
  exists state'. split; [reflexivity|].
  rewrite (step_leaves_unlisted_layers no_draw
             (init (OneLayer "agent") 1 0 PyNone false) layered
             (mkAction 0.25 0.25 0.5 0.5) state' ("prey", 0) H).
  - reflexivity.
  - simpl. intros [E|[]]. discriminate.
Defined.

End select_move.

Module l2_reward.

(** The values [_steps_until_reset] and [reset_steps_after_contact] take:
    [np.inf] or a Python integer. *)
Inductive Steps : Type :=
| Inf
| Fin (n : Z).

(** [s == np.inf], [s - 1] and [s < 0]. *)
Definition is_inf (s : Steps) : bool :=
  match s with
  | Inf => true
  | Fin _ => false
  end.

Definition decrement (s : Steps) : Steps :=
  match s with
  | Inf => Inf
  | Fin n => Fin (n - 1)
  end.

Definition negative (s : Steps) : bool :=
  match s with
  | Inf => false
  | Fin n => (n <? 0)%Z
  end.

(** The attributes of a task object.  [_steps_until_reset] does not exist
    before the first [reset].  The [_condition] attribute is stored by the
    constructor and read by no method below; it is left out. *)
Record L2Reward : Type := mkL2Reward {
  _layers_0 : list string;
  _layers_1 : list string;
  _has_made_contact : bool;
  _reset_steps_after_contact : Steps;
  _terminate_distance : float;
  _raw_reward_multiplier : float;
  _steps_until_reset : option Steps
}.

Definition init (layers_0 layers_1 : LayersArg)
  (reset_steps_after_contact : Steps)
  (terminate_distance raw_reward_multiplier : float) : L2Reward :=
  mkL2Reward
    match layers_0 with OneLayer name => [name] | Layers names => names end
    match layers_1 with OneLayer name => [name] | Layers names => names end
    false reset_steps_after_contact terminate_distance raw_reward_multiplier
    None.

Definition set_has_made_contact (self : L2Reward) (b : bool) : L2Reward :=
  mkL2Reward (_layers_0 self) (_layers_1 self) b
    (_reset_steps_after_contact self) (_terminate_distance self)
    (_raw_reward_multiplier self) (_steps_until_reset self).

Definition set_steps_until_reset (self : L2Reward) (s : Steps) : L2Reward :=
  mkL2Reward (_layers_0 self) (_layers_1 self) (_has_made_contact self)
    (_reset_steps_after_contact self) (_terminate_distance self)
    (_raw_reward_multiplier self) (Some s).

Definition reset (self : L2Reward) : L2Reward :=
  set_has_made_contact (set_steps_until_reset self Inf) false.

Definition has_finished (self : L2Reward) : bool := _has_made_contact self.

(** [np.sum((sprite.position - goal_position)**2.)**0.5], then the shaping.
    Squaring is the product of a number with itself, and the power 0.5 is
    taken to be the IEEE square root (the C library's [pow] may differ from it
    in the last bit, on which no statement below depends). *)
Definition _single_sprite_reward (self : L2Reward) (sprite : Sprite)
  (goal_position : Vec2) : float :=
  let d := vsub (position sprite) goal_position in
  let goal_distance :=
    PrimFloat.sqrt
      (PrimFloat.add (PrimFloat.mul (vx d) (vx d))
                     (PrimFloat.mul (vy d) (vy d))) in
  let raw_reward := PrimFloat.sub (_terminate_distance self) goal_distance in
  PrimFloat.mul (_raw_reward_multiplier self) raw_reward.

(** [[s for k in layers for s in state[k]]]. *)
Fixpoint sprites_of (state : State) (layers : list string)
  : result (list Sprite) :=
  match layers with
  | [] => Ok []
  | k :: rest =>
      layer <- getitem state k ;;
      sprites <- sprites_of state rest ;;
      Ok (layer ++ sprites)
  end.

(** [l[0]]. *)
Definition first {A : Type} (l : list A) : result A :=
  match l with
  | [] => Raise IndexError
  | a :: _ => Ok a
  end.

(** [int(b)], and the float a Python integer becomes in a product with a
    float (exact below 2^53 in magnitude). *)
Definition int_of_bool (b : bool) : Z := if b then 1%Z else 0%Z.

Definition float_of_int (z : Z) : float :=
  if (z <? 0)%Z
  then PrimFloat.opp (PrimFloat.of_uint63 (Uint63.of_Z (- z)))
  else PrimFloat.of_uint63 (Uint63.of_Z z).

Section Reward.

(** [sprite.overlaps_sprite(other)]: the overlap test of the sprite library. *)
Variable overlaps_sprite : Sprite -> Sprite -> bool.

(** The two sprites [reward] looks at. *)
Definition designated (self : L2Reward) (state : State)
  : result (Sprite * Sprite) :=
  sprites_0 <- sprites_of state (_layers_0 self) ;;
  sprites_1 <- sprites_of state (_layers_1 self) ;;
  s0 <- first sprites_0 ;;
  s1 <- first sprites_1 ;;
  Ok (s0, s1).

(** [reward] returns the object as the call leaves it, and the pair
    [(reward, should_reset)] or the exception raised. *)
Definition reward (self : L2Reward) (state : State)
  : L2Reward * result (float * bool) :=
  match designated self state with
  | Raise e => (self, Raise e)
  | Ok (s0, s1) =>
      let reward := _single_sprite_reward self s0 (position s1) in
      let armed :=
        if overlaps_sprite s0 s1
        then
          let self := set_has_made_contact self true in
          match _steps_until_reset self with
          | None => (self, Raise (AttributeError "_steps_until_reset"))
          | Some steps =>
              if is_inf steps
              then (set_steps_until_reset self (_reset_steps_after_contact self),
                    Ok (_reset_steps_after_contact self))
              else (self, Ok steps)
          end
        else
          match _steps_until_reset self with
          | None => (self, Raise (AttributeError "_steps_until_reset"))
          | Some steps => (self, Ok steps)
          end in
      match armed with
      | (self, Raise e) => (self, Raise e)
      | (self, Ok steps) =>
          let self := set_steps_until_reset self (decrement steps) in
          let should_reset := negative (decrement steps) in
          (self,
           Ok (PrimFloat.mul reward
                 (float_of_int (1 - int_of_bool should_reset)),
               should_reset))
      end
  end.

(** The reward calls of an episode, one per state, up to the first exception. *)
Fixpoint run (self : L2Reward) (states : list State)
  : L2Reward * result (list (float * bool)) :=
  match states with
  | [] => (self, Ok [])
  | state :: rest =>
      match reward self state with
      | (self, Raise e) => (self, Raise e)
      | (self, Ok out) =>
          match run self rest with
          | (self, Raise e) => (self, Raise e)
          | (self, Ok outs) => (self, Ok (out :: outs))
          end
      end
  end.

(** *** One call of [reward] *)

(** The two designated sprites overlap in [state]. *)
Definition contact (self : L2Reward) (state : State) : bool :=
  match designated self state with
  | Ok (s0, s1) => overlaps_sprite s0 s1
  | Raise _ => false
  end.

(** Two objects with the same constructor arguments. *)
Definition same_task (a b : L2Reward) : Prop :=
  _layers_0 a = _layers_0 b /\
  _layers_1 a = _layers_1 b /\
  _reset_steps_after_contact a = _reset_steps_after_contact b /\
  _terminate_distance a = _terminate_distance b /\
  _raw_reward_multiplier a = _raw_reward_multiplier b.

Lemma same_task_refl a : same_task a a.
Proof. repeat split. Qed.

Lemma same_task_trans a b c : same_task a b -> same_task b c -> same_task a c.
Proof.
  unfold same_task. intros (?&?&?&?&?) (?&?&?&?&?). repeat split; congruence.
Qed.

Lemma contact_same_task a b state :
  same_task a b -> contact a state = contact b state.
Proof.
  intros (H0 & H1 & _). unfold contact, designated. now rewrite H0, H1.
Qed.

Lemma reward_ok self state self' r b :
  reward self state = (self', Ok (r, b)) ->
  exists steps s0 s1,
    designated self state = Ok (s0, s1) /\
    _steps_until_reset self = Some steps /\
    _steps_until_reset self' =
      Some (decrement (if contact self state && is_inf steps
                       then _reset_steps_after_contact self else steps)) /\
    b = negative (decrement (if contact self state && is_inf steps
                             then _reset_steps_after_contact self else steps)) /\
    r = PrimFloat.mul (_single_sprite_reward self s0 (position s1))
          (float_of_int (1 - int_of_bool b)) /\
    same_task self' self.
Proof.
  unfold reward, contact.
  destruct (designated self state) as [[s0 s1]|]; [|discriminate].
  destruct (overlaps_sprite s0 s1); simpl;
    (destruct (_steps_until_reset self) as [[|m]|] eqn:Hs;
     simpl; [| |discriminate]);
    intros [= <- <- <-]; do 3 eexists;
    (split; [reflexivity|]); (split; [reflexivity|]); repeat split.
Qed.

Lemma designated_same_task a b state :
  same_task a b -> designated a state = designated b state.
Proof.
  intros (H0 & H1 & _). unfold designated. now rewrite H0, H1.
Qed.

Lemma reward_total self state steps p :
  designated self state = Ok p ->
  _steps_until_reset self = Some steps ->
  exists self1 out, reward self state = (self1, Ok out).
Proof.
  intros Hd Hs. unfold reward. rewrite Hd. destruct p as [s0 s1].
  destruct (overlaps_sprite s0 s1); simpl; rewrite Hs;
    [destruct (is_inf steps)|]; eauto.
Qed.

(** *** The calls of an episode *)

(** The designated sprites overlap in the state of call [j] (calls are
    numbered from 0). *)
Definition contact_at (self : L2Reward) (states : list State) (j : nat) : bool :=
  match nth_error states j with
  | Some state => contact self state
  | None => false
  end.

(** Call [c] is the first one with a contact. *)
Definition first_contact (self : L2Reward) (states : list State) (c : nat)
  : Prop :=
  contact_at self states c = true /\
  forall i, i < c -> contact_at self states i = false.

Ltac zbool :=
  repeat match goal with
         | |- context [(?a <? ?b)%Z] => destruct (Z.ltb_spec a b)
         | |- context [(?a <=? ?b)%Z] => destruct (Z.leb_spec a b)
         end; try reflexivity; try lia.

Lemma run_ok_cons self state rest self' outs :
  run self (state :: rest) = (self', Ok outs) ->
  exists self1 out outs',
    reward self state = (self1, Ok out) /\
    run self1 rest = (self', Ok outs') /\
    outs = out :: outs'.
Proof.
  simpl. destruct (reward self state) as [self1 [out|]]; [|discriminate].
  destruct (run self1 rest) as [self2 [outs'|]] eqn:Hrun; [|discriminate].
  intros [= <- <-]. now exists self1, out, outs'.
Qed.

Lemma run_total states : forall self steps,
  _steps_until_reset self = Some steps ->
  Forall (fun state => exists p, designated self state = Ok p) states ->
  exists self' outs,
    run self states = (self', Ok outs) /\
    List.length outs = List.length states.
Proof.
  induction states as [|state rest IH]; intros self steps Hs Hall.
  - now exists self, [].
  - inversion Hall as [|? ? [p Hp] Hrest]; subst.
    destruct (reward_total _ _ _ _ Hp Hs) as (self1 & [r b] & Hr).
    destruct (reward_ok _ _ _ _ _ Hr) as (? & _ & _ & _ & _ & Hs1 & _ & _ & Hsame).
    destruct (IH self1 _ Hs1) as (self' & outs & Hrun & Hlen).
    + eapply Forall_impl; [|exact Hrest]. intros st [q Hq]. exists q.
      now rewrite (designated_same_task _ _ _ Hsame).
    + exists self', ((r, b) :: outs). simpl. rewrite Hr, Hrun.
      split; [reflexivity|]. now rewrite Hlen.
Qed.

(** Once the counter is a number, every call lowers it by one, contact or
    not. *)
Lemma run_fin states : forall self self' outs m,
  _steps_until_reset self = Some (Fin m) ->
  run self states = (self', Ok outs) ->
  forall j out,
    nth_error outs j = Some out ->
    snd out = (m - Z.of_nat j - 1 <? 0)%Z.
Proof.
  induction states as [|state rest IH]; intros self self' outs m Hs Hrun j out Hj.
  - injection Hrun as <- <-. now destruct j.
  - apply run_ok_cons in Hrun as (self1 & [r b] & outs' & Hr & Hrun & ->).
    apply reward_ok in Hr as (steps & _ & _ & _ & Hs' & Hs1 & Hb & _).
    rewrite Hs in Hs'. injection Hs' as <-.
    simpl in Hs1, Hb. rewrite andb_false_r in Hs1, Hb. simpl in Hs1, Hb.
    destruct j as [|j]; simpl in Hj.
    + injection Hj as <-. simpl. rewrite Hb. zbool.
    + rewrite (IH _ _ _ _ Hs1 Hrun j out Hj). zbool.
Qed.

(** While the counter is infinite and no contact occurs, it stays infinite
    and [should_reset] is false. *)
Lemma run_inf_before self0 states : forall self self' outs,
  same_task self self0 ->
  _steps_until_reset self = Some Inf ->
  run self states = (self', Ok outs) ->
  forall j out,
    nth_error outs j = Some out ->
    (forall i, i <= j -> contact_at self0 states i = false) ->
    snd out = false.
Proof.
  induction states as [|state rest IH];
    intros self self' outs Hsame Hs Hrun j out Hj Hno.
  - injection Hrun as <- <-. now destruct j.
  - apply run_ok_cons in Hrun as (self1 & [r b] & outs' & Hr & Hrun & ->).
    apply reward_ok in Hr as (steps & _ & _ & _ & Hs' & Hs1 & Hb & _ & Hsame1).
    rewrite Hs in Hs'. injection Hs' as <-.
    rewrite (contact_same_task _ _ _ Hsame) in Hs1, Hb.
    assert (H0 := Hno 0 (Nat.le_0_l _)). unfold contact_at in H0. simpl in H0.
    rewrite H0 in Hs1, Hb. simpl in Hs1, Hb.
    destruct j as [|j]; simpl in Hj.
    + now injection Hj as <-.
    + apply (IH self1 self' outs' (same_task_trans _ _ _ Hsame1 Hsame)
               Hs1 Hrun j out Hj).
      intros i Hi. apply (Hno (S i)). lia.
Qed.

Lemma run_inf_counter self0 states : forall self self' outs,
  same_task self self0 ->
  _steps_until_reset self = Some Inf ->
  run self states = (self', Ok outs) ->
  Forall (fun state => contact self0 state = false) states ->
  _steps_until_reset self' = Some Inf.
Proof.
  induction states as [|state rest IH];
    intros self self' outs Hsame Hs Hrun Hno.
  - now injection Hrun as <- <-.
  - apply run_ok_cons in Hrun as (self1 & [r b] & outs' & Hr & Hrun & ->).
    apply reward_ok in Hr as (steps & _ & _ & _ & Hs' & Hs1 & _ & _ & Hsame1).
    rewrite Hs in Hs'. injection Hs' as <-.
    inversion Hno as [|? ? H0 Hrest]; subst.
    rewrite (contact_same_task _ _ _ Hsame), H0 in Hs1. simpl in Hs1.
    apply (IH self1 self' outs' (same_task_trans _ _ _ Hsame1 Hsame)
             Hs1 Hrun Hrest).
Qed.

(** With an infinite [reset_steps_after_contact] the counter never leaves
    infinity. *)
Lemma run_inf_never self0 states : forall self self' outs,
  same_task self self0 ->
  _reset_steps_after_contact self0 = Inf ->
  _steps_until_reset self = Some Inf ->
  run self states = (self', Ok outs) ->
  forall j out, nth_error outs j = Some out -> snd out = false.
Proof.
  induction states as [|state rest IH];
    intros self self' outs Hsame HN Hs Hrun j out Hj.
  - injection Hrun as <- <-. now destruct j.
  - apply run_ok_cons in Hrun as (self1 & [r b] & outs' & Hr & Hrun & ->).
    apply reward_ok in Hr as (steps & _ & _ & _ & Hs' & Hs1 & Hb & _ & Hsame1).
    rewrite Hs in Hs'. injection Hs' as <-.
    destruct Hsame as (E0 & E1 & EN & Erest). rewrite EN, HN in Hs1, Hb.
    assert (Hs1' : _steps_until_reset self1 = Some Inf)
      by (rewrite Hs1; now destruct (contact self state)).
    assert (Hb' : b = false) by (rewrite Hb; now destruct (contact self state)).
    destruct j as [|j]; simpl in Hj.
    + now injection Hj as <-.
    + apply (IH self1 self' outs'
               (same_task_trans _ _ _ Hsame1 (conj E0 (conj E1 (conj EN Erest))))
               HN Hs1' Hrun j out Hj).
Qed.

(** After the first contact, at call [c], the call [c + k] signals a reset
    exactly when [k] has reached [reset_steps_after_contact]. *)
Lemma run_inf_after self0 states n : forall self self' outs,
  same_task self self0 ->
  _reset_steps_after_contact self0 = Fin n ->
  _steps_until_reset self = Some Inf ->
  run self states = (self', Ok outs) ->
  forall c k out,
    first_contact self0 states c ->
    nth_error outs (c + k) = Some out ->
    snd out = (n <=? Z.of_nat k)%Z.
Proof.
  induction states as [|state rest IH];
    intros self self' outs Hsame HN Hs Hrun c k out [Hc Hbefore] Hj.
  - injection Hrun as <- <-. now destruct (c + k).
  - apply run_ok_cons in Hrun as (self1 & [r b] & outs' & Hr & Hrun & ->).
    apply reward_ok in Hr as (steps & _ & _ & _ & Hs' & Hs1 & Hb & _ & Hsame1).
    rewrite Hs in Hs'. injection Hs' as <-.
    rewrite (contact_same_task _ _ _ Hsame) in Hs1, Hb.
    assert (Hsame1' := same_task_trans _ _ _ Hsame1 Hsame).
    destruct c as [|c].
    + unfold contact_at in Hc. simpl in Hc. rewrite Hc in Hs1, Hb.
      destruct Hsame as (_ & _ & EN & _). rewrite EN, HN in Hs1, Hb.
      simpl in Hs1, Hb, Hj. destruct k as [|k]; simpl in Hj.
      * injection Hj as <-. simpl. rewrite Hb. zbool.
      * rewrite (run_fin _ _ _ _ _ Hs1 Hrun k out Hj). zbool.
    + assert (H0 := Hbefore 0 (Nat.lt_0_succ _)).
      unfold contact_at in H0. simpl in H0. rewrite H0 in Hs1. simpl in Hs1.
      simpl in Hj. apply (IH self1 self' outs' Hsame1' HN Hs1 Hrun c k out);
        [|exact Hj].
      split; [exact Hc|]. intros i Hi. apply (Hbefore (S i)). lia.
Qed.

(** Up to any call, either no contact has occurred or there is a first one. *)
Lemma first_contact_upto self states j :
  (forall i, i <= j -> contact_at self states i = false) \/
  (exists c, c <= j /\ first_contact self states c).
Proof.
  induction j as [|j [IH|(c & Hc & Hfirst)]].
  - destruct (contact_at self states 0) eqn:H0.
    + right. exists 0. repeat split; auto. intros i Hi. lia.
    + left. intros i Hi. now replace i with 0 by lia.
  - destruct (contact_at self states (S j)) eqn:HS.
    + right. exists (S j). repeat split; auto. intros i Hi. apply IH. lia.
    + left. intros i Hi. destruct (Nat.eq_dec i (S j)) as [->|]; auto.
      apply IH. lia.
  - right. exists c. split; [lia|exact Hfirst].
Qed.

(** A true [should_reset] needs a contact and enough calls since the first
    one. *)
Lemma should_reset_needs_contact self states self' outs j out :
  run (reset self) states = (self', Ok outs) ->
  nth_error outs j = Some out ->
  snd out = true ->
  exists c n,
    c <= j /\
    first_contact self states c /\
    _reset_steps_after_contact self = Fin n /\
    (Z.of_nat c + n <= Z.of_nat j)%Z.
Proof.
  intros Hrun Hj Htrue.
  assert (Hsame : same_task (reset self) self) by repeat split.
  destruct (first_contact_upto self states j) as [Hno|(c & Hc & Hfirst)].
  - rewrite (run_inf_before self states _ _ _ Hsame eq_refl Hrun j out Hj Hno)
      in Htrue. discriminate.
  - destruct (_reset_steps_after_contact self) as [|n] eqn:HN.
    + rewrite (run_inf_never self states _ _ _ Hsame HN eq_refl Hrun j out Hj)
        in Htrue. discriminate.
    + exists c, n. repeat split; auto; try apply Hfirst.
      replace j with (c + (j - c)) in Hj by lia.
      rewrite (run_inf_after self states n _ _ _ Hsame HN eq_refl Hrun
                 c (j - c) out Hfirst Hj) in Htrue.
      apply Z.leb_le in Htrue. lia.
Qed.

(** *** Multiplying by the zero of [1 - int(should_reset)] *)

Lemma SFeqb_finite_refl s m e :
  SFeqb (S754_finite s m e) (S754_finite s m e) = true.
Proof.
  unfold SFeqb, SFcompare. rewrite Z.compare_refl, Pos.compare_cont_refl.
  now destruct s.
Qed.

Lemma is_finite_spec x :
  PrimFloat.is_finite x =
  match Prim2SF x with
  | S754_nan | S754_infinity _ => false
  | S754_zero _ | S754_finite _ _ _ => true
  end.
Proof.
  unfold PrimFloat.is_finite, PrimFloat.is_nan, PrimFloat.is_infinity.
  rewrite !eqb_spec, abs_spec.
  change (Prim2SF infinity) with (S754_infinity false).
  destruct (Prim2SF x) as [s|s| |s m e]; simpl;
    try rewrite SFeqb_finite_refl; try destruct s; reflexivity.
Qed.

Lemma mul_zero_finite x :
  PrimFloat.is_finite x = true ->
  PrimFloat.eqb (PrimFloat.mul x 0) 0 = true.
Proof.
  rewrite is_finite_spec, eqb_spec, mul_spec.
  change (Prim2SF 0) with (S754_zero false).
  destruct (Prim2SF x) as [s|s| |s m e]; try discriminate; intros _;
    now destruct s.
Qed.

Lemma mul_zero_not_finite x :
  PrimFloat.is_finite x = false -> PrimFloat.mul x 0 = PrimFloat.nan.
Proof.
  rewrite is_finite_spec. intros H.
  rewrite <- (SF2Prim_Prim2SF (PrimFloat.mul x 0)), mul_spec.
  change (Prim2SF 0) with (S754_zero false).
  destruct (Prim2SF x) as [s|s| |s m e]; try discriminate; reflexivity.
Qed.

(** *** The claims about [reward] *)

(** C6.  In every run of [reward] calls that starts from [reset] and finds the
    two designated sprites in each state, every call returns, [should_reset]
    is false on every call up to which no contact has occurred, and when the
    first contact is at call [c] the call [c + k] returns [should_reset] true
    exactly when [k] has reached [reset_steps_after_contact]: it becomes true
    that many calls after the first contact.  With an infinite
    [reset_steps_after_contact] it is never true. *)
Theorem should_reset_after_first_contact self states :
  Forall (fun state => exists p, designated self state = Ok p) states ->
  exists self' outs,
    run (reset self) states = (self', Ok outs) /\
    List.length outs = List.length states /\
    (forall j out,
       nth_error outs j = Some out ->
       (forall i, i <= j -> contact_at self states i = false) ->
       snd out = false) /\
    (forall c k n out,
       _reset_steps_after_contact self = Fin n ->
       first_contact self states c ->
       nth_error outs (c + k) = Some out ->
       snd out = (n <=? Z.of_nat k)%Z) /\
    (_reset_steps_after_contact self = Inf ->
     forall j out, nth_error outs j = Some out -> snd out = false).
Proof.
  intros Hall.
  assert (Hsame : same_task (reset self) self) by repeat split.
  destruct (run_total states (reset self) Inf eq_refl) as (self' & outs & Hrun & Hlen).
  { eapply Forall_impl; [|exact Hall]. intros st [p Hp]. now exists p. }
  exists self', outs. split; [exact Hrun|]. split; [exact Hlen|].
  split; [|split].
  - intros j out. apply (run_inf_before self states _ _ _ Hsame eq_refl Hrun).
  - intros c k n out HN.
    apply (run_inf_after self states n _ _ _ Hsame HN eq_refl Hrun).
  - intros HN.
    apply (run_inf_never self states _ _ _ Hsame HN eq_refl Hrun).
Qed.

(** C7 (as amended).  [reset] sets the counter to infinity and every [reward]
    call decrements it, but infinity minus one is infinity: through any
    number of calls without contact the counter stays infinite and
    [should_reset] stays false.  Whenever [should_reset] is true, a contact
    has occurred, [reset_steps_after_contact] is a number, and at least that
    many calls have elapsed since the first contact. *)
Theorem should_reset_counts_from_contact self states :
  _steps_until_reset (reset self) = Some Inf /\
  decrement Inf = Inf /\
  forall self' outs,
    run (reset self) states = (self', Ok outs) ->
    (Forall (fun state => contact self state = false) states ->
     _steps_until_reset self' = Some Inf /\
     Forall (fun out => snd out = false) outs) /\
    (forall j out,
       nth_error outs j = Some out ->
       snd out = true ->
       exists c n,
         c <= j /\
         first_contact self states c /\
         _reset_steps_after_contact self = Fin n /\
         (Z.of_nat c + n <= Z.of_nat j)%Z).
Proof.
  split; [reflexivity|]. split; [reflexivity|].
  intros self' outs Hrun.
  assert (Hsame : same_task (reset self) self) by repeat split.
  split.
  - intros Hno. split.
    + apply (run_inf_counter self states _ _ _ Hsame eq_refl Hrun Hno).
    + apply Forall_forall. intros out Hin.
      apply In_nth_error in Hin as [j Hj].
      apply (run_inf_before self states _ _ _ Hsame eq_refl Hrun j out Hj).
      intros i _. unfold contact_at.
      destruct (nth_error states i) as [st|] eqn:Hi; auto.
      rewrite Forall_forall in Hno. apply Hno. eapply nth_error_In; eauto.
  - intros j out Hj Htrue.
    exact (should_reset_needs_contact _ _ _ _ _ _ Hrun Hj Htrue).
Qed.

(** C9 (as amended).  When [reward] returns [should_reset = True], the reward
    it returns is the distance-shaped value times 0: it equals 0 (as +0.0 or
    -0.0) whenever the shaped value is a finite number, and it is NaN when the
    shaped value is infinite or NaN. *)
Theorem reset_signal_zeroes_finite_reward self state self' r :
  reward self state = (self', Ok (r, true)) ->
  exists s0 s1,
    designated self state = Ok (s0, s1) /\
    r = PrimFloat.mul (_single_sprite_reward self s0 (position s1)) 0 /\
    (PrimFloat.is_finite (_single_sprite_reward self s0 (position s1)) = true ->
     PrimFloat.eqb r 0 = true) /\
    (PrimFloat.is_finite (_single_sprite_reward self s0 (position s1)) = false ->
     r = PrimFloat.nan).
Proof.
  intros H.
  apply reward_ok in H as (steps & s0 & s1 & Hd & _ & _ & _ & Hr & _).
  exists s0, s1. split; [exact Hd|].
  change (float_of_int (1 - int_of_bool true)) with 0%float in Hr.
  split; [exact Hr|]. rewrite Hr. split.
  - apply mul_zero_finite.
  - apply mul_zero_not_finite.
Qed.

End Reward.

(** *** Concrete runs *)

Definition sprite_at (x y : float) : Sprite :=
  mkSprite (vec2 x y) (vec2 0 0) 1 (fun _ => false).

(** A stand-in for the library's overlap test: two sprites closer than 0.1
    along both axes. *)
Definition near (a b : Sprite) : bool :=
  let d := vsub (position a) (position b) in
  PrimFloat.ltb (PrimFloat.abs (vx d)) 0.1 &&
  PrimFloat.ltb (PrimFloat.abs (vy d)) 0.1.

Definition apart : State :=
  [("agent", [sprite_at 0.25 0.25]); ("target", [sprite_at 0.75 0.75])].

Definition touching : State :=
  [("agent", [sprite_at 0.75 0.75]); ("target", [sprite_at 0.75 0.75])].

(** Two sprites so large that they overlap although their positions are
    1e200 apart. *)
Definition far_flung : State :=
  [("agent", [sprite_at 1e200 0]); ("target", [sprite_at 0 0])].

Definition task (reset_steps_after_contact : Steps) : L2Reward :=
  init (OneLayer "agent") (OneLayer "target") reset_steps_after_contact 0.05 5.

Lemma should_reset_after_first_contact_witness :
  exists self' outs,
    run near (reset (task (Fin 2))) [apart; touching; touching; apart; apart]
      = (self', Ok outs) /\
    List.length outs = 5 /\
    (forall k out,
       nth_error outs (1 + k) = Some out -> snd out = (2 <=? Z.of_nat k)%Z).
Proof.
  destruct (should_reset_after_first_contact near (task (Fin 2))
              [apart; touching; touching; apart; apart])
    as (self' & outs & Hrun & Hlen & _ & Hafter & _).
  - repeat (apply Forall_cons; [eexists; reflexivity|]). apply Forall_nil.
  - exists self', outs. split; [exact Hrun|]. split; [exact Hlen|].
    intros k out. apply (Hafter 1 k 2%Z out eq_refl).
    split; [reflexivity|]. intros [|i] Hi; [reflexivity|lia].
Defined.

(** C7 as stated fails.  Five calls without contact leave the counter at
    infinity and never signal a reset; and in no run at all does
    [should_reset] become true before [reset_steps_after_contact] calls have
    elapsed since the first contact. *)
Lemma accumulated_calls_never_trigger_reset :
  (exists self' outs,
     run near (reset (task (Fin 2))) [apart; apart; apart; apart; apart]
       = (self', Ok outs) /\
     _steps_until_reset self' = Some Inf /\
     map snd outs = [false; false; false; false; false]) /\
  (forall overlaps_sprite self states self' outs j out,
     run overlaps_sprite (reset self) states = (self', Ok outs) ->
     nth_error outs j = Some out ->
     snd out = true ->
     exists c n,
       c <= j /\
       first_contact overlaps_sprite self states c /\
       _reset_steps_after_contact self = Fin n /\
       (Z.of_nat c + n <= Z.of_nat j)%Z).
Proof.
  split.
  - do 2 eexists. split; [vm_compute; reflexivity|]. split; reflexivity.
  - intros. eapply should_reset_needs_contact; eauto.
Qed.

Lemma should_reset_counts_from_contact_witness :
  exists self' outs,
    run near (reset (task (Fin 2))) [apart; apart; apart]
      = (self', Ok outs) /\
    _steps_until_reset self' = Some Inf /\
    Forall (fun out => snd out = false) outs.
Proof.
  destruct (run near (reset (task (Fin 2))) [apart; apart; apart])
    as [self' [outs|e]] eqn:Hrun; [|vm_compute in Hrun; discriminate].
  exists self', outs. split; [reflexivity|].
  apply (proj2 (proj2 (should_reset_counts_from_contact near (task (Fin 2))
                         [apart; apart; apart])) self' outs Hrun).
  repeat (apply Forall_cons; [reflexivity|]). apply Forall_nil.
Defined.

(** C9 as stated fails when the shaped value is not finite: the squares of a
    distance of 1e200 overflow, the shaped value is minus infinity, and its
    product with 0 is NaN, which is not 0. *)
Lemma reset_signal_reward_nan_counterexample :
  exists self' r,
    reward (fun _ _ => true) (reset (task (Fin 0))) far_flung
      = (self', Ok (r, true)) /\
    r = PrimFloat.nan /\
    PrimFloat.eqb r 0 = false.
Proof.
  do 2 eexists. split; [vm_compute; reflexivity|]. split; reflexivity.
Qed.

Lemma reset_signal_zeroes_finite_reward_witness :
  exists s0 s1,
    designated (reset (task (Fin 0))) touching = Ok (s0, s1) /\
    0%float
      = PrimFloat.mul
          (_single_sprite_reward (reset (task (Fin 0))) s0 (position s1)) 0 /\
    (PrimFloat.is_finite
       (_single_sprite_reward (reset (task (Fin 0))) s0 (position s1)) = true ->
     PrimFloat.eqb 0 0 = true) /\
    (PrimFloat.is_finite
       (_single_sprite_reward (reset (task (Fin 0))) s0 (position s1)) = false ->
     0%float = PrimFloat.nan).
Proof.
  exact (reset_signal_zeroes_finite_reward near (reset (task (Fin 0))) touching
           (set_steps_until_reset
              (set_has_made_contact (reset (task (Fin 0))) true) (Fin (-1)))
           0%float eq_refl).
Defined.

(** ** Further properties of the task *)

Section RewardProperties.

Variable overlaps_sprite : Sprite -> Sprite -> bool.

Lemma reward_same_task self state :
  same_task (fst (reward overlaps_sprite self state)) self.
Proof.
  unfold reward. destruct (designated self state) as [[s0 s1]|];
    [|apply same_task_refl].
  destruct (overlaps_sprite s0 s1); simpl;
    destruct (_steps_until_reset self) as [[|m]|]; simpl; repeat split.
Qed.

Lemma run_same_task states : forall self,
  same_task (fst (run overlaps_sprite self states)) self.
Proof.
  induction states as [|state rest IH]; intros self; simpl.
  - apply same_task_refl.
  - pose proof (reward_same_task self state) as H1.
    destruct (reward overlaps_sprite self state) as [self1 [out|e]];
      simpl in *; [|exact H1].
    pose proof (IH self1) as H2.
    destruct (run overlaps_sprite self1 rest) as [self2 [outs|e]]; simpl in *;
      eapply same_task_trans; eauto.
Qed.

Lemma reset_same_task a b : same_task a b -> reset a = reset b.
Proof.
  destruct a, b. unfold same_task, reset, set_has_made_contact,
    set_steps_until_reset. simpl.
  intros (-> & -> & -> & -> & ->). reflexivity.
Qed.

Lemma reward_contact_flag self state self' out :
  reward overlaps_sprite self state = (self', Ok out) ->
  _has_made_contact self'
  = contact overlaps_sprite self state || _has_made_contact self.
Proof.
  unfold reward, contact.
  destruct (designated self state) as [[s0 s1]|]; [|discriminate].
  destruct (overlaps_sprite s0 s1); simpl;
    (destruct (_steps_until_reset self) as [[|m]|]; simpl; [| |discriminate]);
    intros [= <- _]; reflexivity.
Qed.

Lemma run_contact_flag self0 states : forall self self' outs,
  same_task self self0 ->
  run overlaps_sprite self states = (self', Ok outs) ->
  _has_made_contact self'
  = existsb (contact overlaps_sprite self0) states || _has_made_contact self.
Proof.
  induction states as [|state rest IH]; intros self self' outs Hsame Hrun.
  - now injection Hrun as <- _.
  - apply run_ok_cons in Hrun as (self1 & out & outs' & Hr & Hrun & _).
    pose proof (reward_same_task self state) as Hsame1.
    rewrite Hr in Hsame1. simpl in Hsame1.
    rewrite (IH self1 self' outs' (same_task_trans _ _ _ Hsame1 Hsame) Hrun).
    rewrite (reward_contact_flag _ _ _ _ Hr).
    rewrite (contact_same_task _ _ _ _ Hsame). simpl.
    destruct (contact overlaps_sprite self0 state),
      (existsb (contact overlaps_sprite self0) rest); reflexivity.
Qed.


(** *** Differences of binary64 numbers *)

Lemma sub_self_finite x :
  PrimFloat.is_finite x = true -> PrimFloat.sub x x = 0%float.
Proof.
  rewrite is_finite_spec. intros H. apply Prim2SF_inj. rewrite sub_spec.
  change (Prim2SF 0) with (S754_zero false).
  destruct (Prim2SF x) as [s|s| |s m e]; try discriminate.
  - now destruct s.
  - unfold SF64sub, SFsub, shl_align.
    rewrite Z.min_id. repeat (rewrite Z.sub_diag; simpl). reflexivity.
Qed.

Lemma sub_zero x : PrimFloat.sub x 0 = x.
Proof.
  apply Prim2SF_inj. rewrite sub_spec.
  change (Prim2SF 0) with (S754_zero false).
  destruct (Prim2SF x) as [s|s| |s m e]; try reflexivity. now destruct s.
Qed.

(** X6.  After the calls of an episode that starts from [reset],
    [has_finished] tells whether the two designated sprites have overlapped
    in the state of some call. *)
Theorem has_finished_iff_contact self states self' outs :
  run overlaps_sprite (reset self) states = (self', Ok outs) ->
  has_finished self' = existsb (contact overlaps_sprite self) states.
Proof.
  intros Hrun. unfold has_finished.
  rewrite (run_contact_flag self states (reset self) self' outs) by
    (repeat split; auto).
  apply orb_false_r.
Qed.

(** X7.  In an episode that starts from [reset], once a call has returned
    [should_reset] true, every later call returns it true as well. *)
Theorem should_reset_is_monotone self states self' outs j j' out out' :
  run overlaps_sprite (reset self) states = (self', Ok outs) ->
  nth_error outs j = Some out ->
  snd out = true ->
  j <= j' ->
  nth_error outs j' = Some out' ->
  snd out' = true.
Proof.
  intros Hrun Hj Htrue Hle Hj'.
  destruct (should_reset_needs_contact overlaps_sprite self states self' outs
              j out Hrun Hj Htrue) as (c & n & Hc & Hfirst & HN & Hn).
  assert (Hsame : same_task (reset self) self) by repeat split.
  replace j' with (c + (j' - c)) in Hj' by lia.
  rewrite (run_inf_after overlaps_sprite self states n _ _ _ Hsame HN eq_refl
             Hrun c (j' - c) out' Hfirst Hj').
  apply Z.leb_le. lia.
Qed.

(** X8.  On an object that has never been reset, the first [reward] call that
    finds its two sprites raises AttributeError: the counter attribute does
    not exist yet.  The contact flag has been set by then if the sprites
    overlap. *)
Theorem reward_before_reset_raises self state rest p :
  _steps_until_reset self = None ->
  designated self state = Ok p ->
  run overlaps_sprite self (state :: rest)
  = (if contact overlaps_sprite self state
     then set_has_made_contact self true else self,
     Raise (AttributeError "_steps_until_reset")).
Proof.
  intros Hs Hd. simpl. unfold reward, contact. rewrite Hd.
  destruct p as [s0 s1]. destruct (overlaps_sprite s0 s1); simpl;
    now rewrite Hs.
Qed.


(** X10.  [reset] forgets what earlier calls left behind: after any sequence
    of [reward] calls, whether it ended in an exception or not, an episode
    that starts from [reset] runs exactly like one on the object as it was
    first reset. *)
Theorem reset_forgets_previous_calls self states0 states :
  run overlaps_sprite (reset (fst (run overlaps_sprite self states0))) states
  = run overlaps_sprite (reset self) states.
Proof.
  now rewrite (reset_same_task _ _ (run_same_task states0 self)).
Qed.

(** X11.  For a sprite that sits exactly on the goal, at a position with
    finite coordinates, the shaped reward is
    [raw_reward_multiplier * terminate_distance]. *)
Theorem single_sprite_reward_at_goal self sprite :
  PrimFloat.is_finite (vx (position sprite)) = true ->
  PrimFloat.is_finite (vy (position sprite)) = true ->
  _single_sprite_reward self sprite (position sprite)
  = PrimFloat.mul (_raw_reward_multiplier self) (_terminate_distance self).
Proof.
  intros Hx Hy. unfold _single_sprite_reward, vsub. simpl.
  rewrite (sub_self_finite _ Hx), (sub_self_finite _ Hy).
  change (PrimFloat.sqrt (PrimFloat.add (PrimFloat.mul 0 0) (PrimFloat.mul 0 0)))
    with 0%float.
  now rewrite sub_zero.
Qed.

End RewardProperties.

Lemma has_finished_iff_contact_witness :
  exists self' outs,
    run near (reset (task (Fin 2))) [apart; touching; apart] = (self', Ok outs) /\
    has_finished self' = true.
Proof.
  destruct (run near (reset (task (Fin 2))) [apart; touching; apart])
    as [self' [outs|e]] eqn:H; [|vm_compute in H; discriminate].
  exists self', outs. split; [reflexivity|].
  rewrite (has_finished_iff_contact near (task (Fin 2))
             [apart; touching; apart] self' outs H).
  reflexivity.
Defined.

Lemma should_reset_is_monotone_witness :
  exists self' outs out',
    run near (reset (task (Fin 2))) [apart; touching; touching; apart; apart]
      = (self', Ok outs) /\
    nth_error outs 4 = Some out' /\
    snd out' = true.
Proof.
  destruct (run near (reset (task (Fin 2)))
              [apart; touching; touching; apart; apart])
    as [self' [outs|e]] eqn:H; [|vm_compute in H; discriminate].
  pose proof H as E. vm_compute in E. injection E as E1 E2. subst self' outs.
  do 3 eexists. split; [reflexivity|]. split; [reflexivity|].
  eapply (should_reset_is_monotone near (task (Fin 2)) _ _ _ 3 4 _ _ H);
    [reflexivity|reflexivity|lia|reflexivity].
Defined.

Lemma reward_before_reset_raises_witness :
  run near (task (Fin 2)) [touching; apart]
  = (set_has_made_contact (task (Fin 2)) true,
     Raise (AttributeError "_steps_until_reset")).
Proof.
  exact (reward_before_reset_raises near (task (Fin 2)) touching [apart]
           (sprite_at 0.75 0.75, sprite_at 0.75 0.75) eq_refl eq_refl).
Defined.


Lemma single_sprite_reward_at_goal_witness :
  _single_sprite_reward (task (Fin 2)) (sprite_at 0.75 0.75) (vec2 0.75 0.75)
  = PrimFloat.mul 5 0.05.
Proof.
  exact (single_sprite_reward_at_goal (task (Fin 2)) (sprite_at 0.75 0.75)
           eq_refl eq_refl).
Defined.

End l2_reward.

Module gym_wrapper.

(** NumPy arrays.  The data of an array are the numbers it holds; for every
    dtype listed each of them is a binary64 value, so the two casts the
    wrapper makes (bool to float32, and any dtype to float64) keep the numbers
    and change the dtype. *)
Inductive Dtype : Type := bool_ | uint8 | int32 | float32 | float64.

Record ndarray : Type := mkArray {
  dtype : Dtype;
  shape : list nat;
  data : list float
}.

Definition astype (a : ndarray) (dt : Dtype) : ndarray :=
  mkArray dt (shape a) (data a).

(** [a.dtype == bool]. *)
Definition is_bool (a : ndarray) : bool :=
  match dtype a with
  | bool_ => true
  | _ => false
  end.

(** An observation dict, in key order; a value stands for what [np.asarray]
    makes of it. *)
Definition Observation : Type := list (string * ndarray).

Definition has_key (k : string) (obs : Observation) : bool :=
  existsb (fun kv => String.eqb k (fst kv)) obs.

Fixpoint lookup (k : string) (obs : Observation) : option ndarray :=
  match obs with
  | [] => None
  | (k', v) :: rest => if String.eqb k k' then Some v else lookup k rest
  end.

(** What [_process_obs] returns: one array, or the dict. *)
Inductive Obs : Type :=
| ObsArray (a : ndarray)
| ObsDict (d : Observation).

(** The Python values a time step carries as reward or discount. *)
Inductive PyValue : Type :=
| VNone
| VFloat (f : float)
| VInt (z : Z)
| VBool (b : bool).

Definition truthy (v : PyValue) : bool :=
  match v with
  | VNone => false
  | VFloat f => negb (PrimFloat.eqb f 0)
  | VInt z => negb (z =? 0)%Z
  | VBool b => b
  end.

(** [a or b]. *)
Definition py_or (a b : PyValue) : PyValue := if truthy a then a else b.

Inductive StepType : Type := FIRST | MID | LAST.

Record TimeStep : Type := mkTimeStep {
  step_type : StepType;
  reward : PyValue;
  discount : PyValue;
  observation : Observation
}.

Definition last (time_step : TimeStep) : bool :=
  match step_type time_step with
  | LAST => true
  | _ => false
  end.

(** The [info] dict of [step]: the discount, and the sprite information when
    the observation has it. *)
Record Info : Type := mkInfo {
  info_discount : PyValue;
  info_sprite_info : option ndarray
}.

Section Wrapper.

(** The wrapped environment: its states, its actions, and what its [step]
    and [reset] return and leave behind. *)
Variable Env : Type.
Variable EnvAction : Type.
Variable env_step : Env -> EnvAction -> TimeStep * Env.
Variable env_reset : Env -> TimeStep * Env.

Record GymWrapper : Type := mkGymWrapper {
  _env : Env;
  _last_render : option ndarray;
  _rendered_frames : list (option ndarray)
}.

(** The constructor resets the environment once. *)
Definition init (env : Env) : GymWrapper :=
  mkGymWrapper (snd (env_reset env)) None [].

(** The conversion of one value in the loop of [_process_obs]. *)
Definition convert (v : ndarray) : ndarray :=
  if is_bool v then astype v float32 else v.

(** The loop of [_process_obs]: every value is converted in place, and the
    value under the key "image" is remembered. *)
Fixpoint process_items (last_render : option ndarray) (obs : Observation)
  : option ndarray * Observation :=
  match obs with
  | [] => (last_render, [])
  | (k, v) :: rest =>
      let last_render :=
        if String.eqb k "image" then Some (convert v) else last_render in
      let (last_render, rest) := process_items last_render rest in
      (last_render, (k, convert v) :: rest)
  end.

(** [_process_obs] returns the object, the dict as the loop leaves it, and
    the processed observation. *)
Definition _process_obs (self : GymWrapper) (obs : Observation)
  : GymWrapper * Observation * result Obs :=
  let (last_render, obs) := process_items (_last_render self) obs in
  let self := mkGymWrapper (_env self) last_render (_rendered_frames self) in
  if Nat.eqb (List.length obs) 1
     || (Nat.eqb (List.length obs) 2 && has_key "image" obs)
  then
    match obs with
    | (_, v) :: _ => (self, obs, Ok (ObsArray v))
    | [] => (self, obs, Raise IndexError)
    end
  else (self, obs, Ok (ObsDict obs)).

(** [obs.astype(np.float)], where [np.float] is the builtin [float], that is
    float64; a dict has no such method. *)
Definition obs_astype_float (obs : Obs) : result Obs :=
  match obs with
  | ObsArray a => Ok (ObsArray (astype a float64))
  | ObsDict _ => Raise (AttributeError "'dict' object has no attribute 'astype'")
  end.

Definition step (self : GymWrapper) (action : EnvAction)
  : GymWrapper * result (Obs * PyValue * bool * Info) :=
  let (time_step, env) := env_step (_env self) action in
  let self := mkGymWrapper env (_last_render self) (_rendered_frames self) in
  let '(self, observation, obs) := _process_obs self (observation time_step) in
  (self,
   obs <- obs ;;
   let reward := py_or (reward time_step) (VInt 0) in
   let done := last time_step in
   let info := mkInfo (discount time_step) (lookup "sprite_info" observation) in
   obs <- (if negb (has_key "image" observation)
           then obs_astype_float obs else Ok obs) ;;
   Ok (obs, reward, done, info)).

Definition reset (self : GymWrapper) : GymWrapper * result Obs :=
  let (time_step, env) := env_reset (_env self) in
  let self := mkGymWrapper env (_last_render self) [] in
  let '(self, _, obs) := _process_obs self (observation time_step) in
  (self, obs).

Definition render (self : GymWrapper) : GymWrapper * option ndarray :=
  (mkGymWrapper (_env self) (_last_render self)
     (_rendered_frames self ++ [_last_render self]),
   _last_render self).

(** The observation as the specification describes it: the converted value of
    the first key when the dict has one key, or two keys one of which is
    "image"; the dict of converted values otherwise. *)
Definition described_obs (obs : Observation) : Obs :=
  let converted := map (fun kv => (fst kv, convert (snd kv))) obs in
  match converted with
  | [(_, v)] => ObsArray v
  | [(_, v); _] =>
      if has_key "image" obs then ObsArray v else ObsDict converted
  | _ => ObsDict converted
  end.

(** *** Processing an observation *)

Definition converted (obs : Observation) : Observation :=
  map (fun kv => (fst kv, convert (snd kv))) obs.

Lemma process_items_converted obs : forall last_render,
  snd (process_items last_render obs) = converted obs.
Proof.
  induction obs as [|[k v] rest IH]; intros last_render; simpl; auto.
  specialize (IH (if String.eqb k "image" then Some (convert v) else last_render)).
  destruct (process_items _ rest). simpl in *. now rewrite IH.
Qed.

Lemma has_key_converted k obs : has_key k (converted obs) = has_key k obs.
Proof.
  unfold has_key, converted. induction obs as [|[k' v] rest IH]; simpl; auto.
  now rewrite IH.
Qed.

Lemma converted_length obs : List.length (converted obs) = List.length obs.
Proof. apply length_map. Qed.

(** [_process_obs] returns what the specification describes, and leaves the
    dict with every value converted. *)
Lemma process_obs_described self obs :
  exists self',
    _process_obs self obs = (self', converted obs, Ok (described_obs obs)).
Proof.
  unfold _process_obs.
  pose proof (process_items_converted obs (_last_render self)) as E.
  destruct (process_items (_last_render self) obs) as [last_render obs'].
  simpl in E. subst obs'.
  rewrite has_key_converted, converted_length. unfold described_obs.
  fold (converted obs).
  remember (has_key "image" obs) as image.
  destruct obs as [|[k1 v1] [|[k2 v2] [|kv3 rest]]]; simpl; eauto.
  destruct image; simpl; eauto.
Qed.

Lemma step_unfold self action :
  let time_step := fst (env_step (_env self) action) in
  exists self',
    step self action =
    (self',
     obs <- (if negb (has_key "image" (observation time_step))
             then obs_astype_float (described_obs (observation time_step))
             else Ok (described_obs (observation time_step))) ;;
     Ok (obs, py_or (reward time_step) (VInt 0), last time_step,
         mkInfo (discount time_step)
           (lookup "sprite_info" (converted (observation time_step))))).
Proof.
  unfold step. destruct (env_step (_env self) action) as [time_step env].
  simpl.
  destruct (process_obs_described
              (mkGymWrapper env (_last_render self) (_rendered_frames self))
              (observation time_step)) as [self' E].
  rewrite E. simpl. rewrite has_key_converted. now exists self'.
Qed.

(** *** The claims about the wrapper *)

(** C8 (as amended).  [reset] returns the converted value of the first key
    (booleans cast to float32) when the observation dict has one key, or two
    keys one of which is "image", and the dict of converted values otherwise.
    [step] returns the same observation whenever "image" is among the keys;
    when the dict has exactly one key and it is not "image", [step] returns
    that value converted and then cast to float64. *)
Theorem observation_collapse self action :
  snd (reset self)
    = Ok (described_obs (observation (fst (env_reset (_env self))))) /\
  (has_key "image" (observation (fst (env_step (_env self) action))) = true ->
   exists r done info,
     snd (step self action)
       = Ok (described_obs (observation (fst (env_step (_env self) action))),
             r, done, info)) /\
  (forall k v,
     observation (fst (env_step (_env self) action)) = [(k, v)] ->
     k <> "image" ->
     exists r done info,
       snd (step self action)
         = Ok (ObsArray (astype (convert v) float64), r, done, info)).
Proof.
  split; [|split].
  - unfold reset. destruct (env_reset (_env self)) as [time_step env]. simpl.
    destruct (process_obs_described (mkGymWrapper env (_last_render self) [])
                (observation time_step)) as [self' E].
    now rewrite E.
  - intros Himage. destruct (step_unfold self action) as [self' E].
    rewrite E, Himage. simpl. eauto.
  - intros k v Hobs Hk. destruct (step_unfold self action) as [self' E].
    rewrite E, Hobs. unfold has_key. cbn -[String.eqb].
    destruct (String.eqb_spec "image" k) as [<-|_]; [congruence|].
    simpl. eauto.
Qed.

(** C10.  When the time step of the wrapped environment carries a reward that
    is [None] or falsy (0.0, 0, False), every tuple [step] returns has the
    integer 0 as its reward; and [step] does return a tuple whenever "image"
    is among the observation keys or the observation has a single key. *)
Theorem step_falsy_reward_is_int_zero self action :
  truthy (reward (fst (env_step (_env self) action))) = false ->
  (forall self' obs r done info,
     step self action = (self', Ok (obs, r, done, info)) -> r = VInt 0) /\
  (has_key "image" (observation (fst (env_step (_env self) action))) = true \/
   List.length (observation (fst (env_step (_env self) action))) = 1 ->
   exists self' obs done info,
     step self action = (self', Ok (obs, VInt 0, done, info))).
Proof.
  intros Hfalsy. destruct (step_unfold self action) as [self1 E].
  unfold py_or in E. rewrite Hfalsy in E. split.
  - intros self' obs r done info H. rewrite E in H.
    destruct (negb _); [destruct (obs_astype_float _)|]; simpl in H;
      congruence.
  - intros [Himage|Hone]; rewrite E.
    + rewrite Himage. simpl. eauto.
    + destruct (observation (fst (env_step (_env self) action)))
        as [|[k v] [|? ?]]; try discriminate.
      simpl. destruct (negb _); simpl; eauto.
Qed.

End Wrapper.

(** *** Concrete environments *)

(** An environment that hands out the same time step at every call. *)
Definition constant_env (time_step : TimeStep) : unit -> unit -> TimeStep * unit :=
  fun _ _ => (time_step, tt).

Definition step_on (time_step : TimeStep)
  : GymWrapper unit * result (Obs * PyValue * bool * Info) :=
  step unit unit (constant_env time_step) (mkGymWrapper unit tt None []) tt.

Definition success_only : TimeStep :=
  mkTimeStep MID (VFloat 1) (VFloat 1) [("success", mkArray bool_ [] [1%float])].

Definition state_and_success : TimeStep :=
  mkTimeStep MID (VFloat 1) (VFloat 1)
    [("state", mkArray float32 [2] [0.5%float; 0.5%float]);
     ("success", mkArray bool_ [] [1%float])].

Definition image_and_state (reward : PyValue) : TimeStep :=
  mkTimeStep MID reward (VFloat 1)
    [("image", mkArray uint8 [1; 1; 3] [255%float; 0%float; 0%float]);
     ("state", mkArray float32 [2] [0.5%float; 0.5%float])].

(** C8 as stated fails for [step] when "image" is not among the keys.  With
    the single key "success" holding a boolean, [step] returns a float64
    array where the described observation is the float32 one; with the two
    keys "state" and "success", [step] raises AttributeError where the
    described observation is the dict. *)
Lemma step_observation_counterexample :
  (snd (step_on success_only)
     = Ok (ObsArray (mkArray float64 [] [1%float]), VFloat 1, false,
           mkInfo (VFloat 1) None) /\
   described_obs (observation success_only)
     = ObsArray (mkArray float32 [] [1%float])) /\
  (snd (step_on state_and_success)
     = Raise (AttributeError "'dict' object has no attribute 'astype'") /\
   described_obs (observation state_and_success)
     = ObsDict [("state", mkArray float32 [2] [0.5%float; 0.5%float]);
                ("success", mkArray float32 [] [1%float])]).
Proof.
  repeat split.
Qed.

Lemma observation_collapse_witness :
  exists r done info,
    snd (step_on (image_and_state (VFloat 1)))
      = Ok (ObsArray (mkArray uint8 [1; 1; 3] [255%float; 0%float; 0%float]),
            r, done, info).
Proof.
  exact (proj1 (proj2 (observation_collapse unit unit
                         (constant_env (image_and_state (VFloat 1)))
                         (fun _ => (image_and_state (VFloat 1), tt))
                         (mkGymWrapper unit tt None []) tt))
           eq_refl).
Defined.

Lemma step_falsy_reward_is_int_zero_witness :
  exists self' obs done info,
    step_on (image_and_state (VFloat 0)) = (self', Ok (obs, VInt 0, done, info)).
Proof.
  exact (proj2 (step_falsy_reward_is_int_zero unit unit
                  (constant_env (image_and_state (VFloat 0)))
                  (mkGymWrapper unit tt None []) tt eq_refl)
           (or_introl eq_refl)).
Defined.

(** ** Further properties of the wrapper *)








Section WrapperProperties.

Variable Env : Type.
Variable EnvAction : Type.
Variable env_step : Env -> EnvAction -> TimeStep * Env.
Variable env_reset : Env -> TimeStep * Env.

Local Abbreviation wrapper := (GymWrapper Env).
Local Abbreviation do_step := (step Env EnvAction env_step).
Local Abbreviation do_reset := (reset Env env_reset).
Local Abbreviation do_render := (render Env).
Local Abbreviation process := (_process_obs Env).
Local Abbreviation last_render := (_last_render Env).
Local Abbreviation rendered_frames := (_rendered_frames Env).
Local Abbreviation env_of := (_env Env).

(** A call a user makes between two resets. *)
Inductive Call : Type :=
| CallStep (action : EnvAction)
| CallRender.

Definition is_render (c : Call) : bool :=
  match c with
  | CallRender => true
  | CallStep _ => false
  end.

(** The object after a sequence of calls; an exception of [step] leaves the
    object as the call made it up to there. *)
Fixpoint after_calls (self : wrapper) (calls : list Call) : wrapper :=
  match calls with
  | [] => self
  | CallStep action :: rest => after_calls (fst (do_step self action)) rest
  | CallRender :: rest => after_calls (fst (do_render self)) rest
  end.

Lemma process_obs_object self obs :
  fst (fst (process self obs))
  = mkGymWrapper Env (env_of self)
      (fst (process_items (last_render self) obs)) (rendered_frames self).
Proof.
  unfold _process_obs.
  destruct (process_items (last_render self) obs) as [lr obs']. simpl.
  destruct (_ || _); [destruct obs' as [|[k v] rest]|]; reflexivity.
Qed.

Lemma step_object self action :
  fst (do_step self action)
  = mkGymWrapper Env (snd (env_step (env_of self) action))
      (fst (process_items (last_render self)
              (observation (fst (env_step (env_of self) action)))))
      (rendered_frames self).
Proof.
  unfold step. destruct (env_step (env_of self) action) as [time_step env].
  pose proof (process_obs_object
                (mkGymWrapper Env env (last_render self) (rendered_frames self))
                (observation time_step)) as H.
  destruct (process _ (observation time_step)) as [[self' obs'] o].
  simpl in *. exact H.
Qed.

Lemma reset_object self :
  fst (do_reset self)
  = mkGymWrapper Env (snd (env_reset (env_of self)))
      (fst (process_items (last_render self)
              (observation (fst (env_reset (env_of self))))))
      [].
Proof.
  unfold reset. destruct (env_reset (env_of self)) as [time_step env].
  pose proof (process_obs_object
                (mkGymWrapper Env env (last_render self) [])
                (observation time_step)) as H.
  destruct (process _ (observation time_step)) as [[self' obs'] o].
  simpl in *. exact H.
Qed.

Lemma process_items_cons lr k v rest :
  fst (process_items lr ((k, v) :: rest))
  = fst (process_items
           (if String.eqb k "image" then Some (convert v) else lr) rest).
Proof.
  cbn -[String.eqb].
  now destruct (process_items
                  (if String.eqb k "image" then Some (convert v) else lr) rest).
Qed.

Lemma has_key_cons k' k v (rest : Observation) :
  has_key k' ((k, v) :: rest) = String.eqb k' k || has_key k' rest.
Proof. reflexivity. Qed.

Lemma process_items_no_image obs : forall lr,
  has_key "image" obs = false -> fst (process_items lr obs) = lr.
Proof.
  induction obs as [|[k v] rest IH]; intros lr; auto.
  rewrite has_key_cons, process_items_cons. intros H.
  apply orb_false_elim in H as [Hk Hrest].
  rewrite (IH _ Hrest). now rewrite String.eqb_sym, Hk.
Qed.

Lemma has_key_in k (obs : Observation) :
  has_key k obs = true <-> In k (map fst obs).
Proof.
  induction obs as [|[k' v] rest IH].
  - split; [discriminate|intros []].
  - rewrite has_key_cons, orb_true_iff, IH, String.eqb_eq. simpl.
    split; intros [H|H]; auto.
Qed.

Lemma process_items_image obs : forall lr v,
  NoDup (map fst obs) ->
  In ("image", v) obs ->
  fst (process_items lr obs) = Some (convert v).
Proof.
  induction obs as [|[k v'] rest IH]; intros lr v Hnd Hin; [destruct Hin|].
  rewrite process_items_cons.
  inversion Hnd as [|? ? Hk Hrest]; subst.
  destruct Hin as [E|Hin].
  - injection E as -> ->. rewrite String.eqb_refl.
    apply process_items_no_image.
    destruct (has_key "image" rest) eqn:E; auto.
    apply has_key_in in E. contradiction.
  - now apply IH.
Qed.

Lemma convert_idem v : convert (convert v) = convert v.
Proof.
  unfold convert. destruct v as [[] sh d]; reflexivity.
Qed.

Lemma converted_idem obs : converted (converted obs) = converted obs.
Proof.
  unfold converted. rewrite map_map. apply map_ext. intros [k v]. simpl.
  now rewrite convert_idem.
Qed.

Lemma described_obs_converted obs :
  described_obs (converted obs) = described_obs obs.
Proof.
  unfold described_obs. fold (converted (converted obs)). fold (converted obs).
  rewrite converted_idem, has_key_converted. reflexivity.
Qed.

Lemma frames_after_calls calls : forall self,
  List.length (rendered_frames (after_calls self calls))
  = List.length (rendered_frames self) + List.length (filter is_render calls).
Proof.
  induction calls as [|[action|] rest IH]; intros self; simpl.
  - lia.
  - now rewrite IH, step_object.
  - rewrite IH. unfold render. simpl. rewrite length_app. simpl. lia.
Qed.




(** X12.  [step] returns its tuple when "image" is among the observation keys
    or the observation has a single key; in every other case (no key
    "image", and no key at all or several keys) it raises AttributeError,
    after the environment has been stepped. *)
Theorem step_returns_or_raises self action :
  (has_key "image" (observation (fst (env_step (env_of self) action))) = true \/
   List.length (observation (fst (env_step (env_of self) action))) = 1 ->
   exists out, snd (do_step self action) = Ok out) /\
  (has_key "image" (observation (fst (env_step (env_of self) action))) = false ->
   List.length (observation (fst (env_step (env_of self) action))) <> 1 ->
   snd (do_step self action)
   = Raise (AttributeError "'dict' object has no attribute 'astype'") /\
   env_of (fst (do_step self action)) = snd (env_step (env_of self) action)).
Proof.
  destruct (step_unfold Env EnvAction env_step self action) as [self' E].
  split.
  - intros [Himage|Hone]; rewrite E; simpl.
    + rewrite Himage. simpl. eauto.
    + destruct (observation (fst (env_step (env_of self) action)))
        as [|[k v] [|? ?]]; try discriminate.
      simpl. destruct (negb _); simpl; eauto.
  - intros Himage Hlen. split; [|now rewrite step_object].
    rewrite E. simpl. rewrite Himage. simpl.
    unfold described_obs. rewrite Himage.
    destruct (observation (fst (env_step (env_of self) action)))
      as [|[k1 v1] [|[k2 v2] [|kv3 rest]]]; simpl; try reflexivity.
    now contradiction Hlen.
Qed.

(** X13.  After a [step], [render] returns the converted array of the key
    "image" of that step's observation; when the observation has no such
    key, [render] returns what it returned before the step. *)
Theorem render_returns_last_image self action :
  (forall v,
     NoDup (map fst (observation (fst (env_step (env_of self) action)))) ->
     In ("image", v) (observation (fst (env_step (env_of self) action))) ->
     snd (do_render (fst (do_step self action))) = Some (convert v)) /\
  (has_key "image" (observation (fst (env_step (env_of self) action))) = false ->
   snd (do_render (fst (do_step self action))) = snd (do_render self)).
Proof.
  unfold render. simpl. rewrite step_object. simpl. split.
  - intros v Hnd Hin. now apply process_items_image.
  - intros H. now apply process_items_no_image.
Qed.

(** X14.  The frames stored for the episode are one per [render] call since
    the last [reset], whatever [step] calls were made in between and whether
    or not they raised. *)
Theorem frames_count_renders self calls :
  List.length (rendered_frames (after_calls (fst (do_reset self)) calls))
  = List.length (filter is_render calls).
Proof.
  rewrite frames_after_calls, reset_object. reflexivity.
Qed.

(** X15.  Processing an observation that has already been processed changes
    nothing: the dict stays as the first pass left it and the same
    observation is returned. *)
Theorem process_obs_idempotent self obs self1 obs1 o1 :
  _process_obs Env self obs = (self1, obs1, o1) ->
  exists self2, _process_obs Env self1 obs1 = (self2, obs1, o1).
Proof.
  intros H. destruct (process_obs_described Env self obs) as [self' E].
  rewrite E in H. injection H as <- <- <-.
  destruct (process_obs_described Env self' (converted obs)) as [self2 E2].
  exists self2. now rewrite E2, converted_idem, described_obs_converted.
Qed.


End WrapperProperties.

Lemma step_returns_or_raises_witness :
  snd (step_on state_and_success)
  = Raise (AttributeError "'dict' object has no attribute 'astype'") /\
  _env unit (fst (step_on state_and_success)) = tt.
Proof.
  apply (proj2 (step_returns_or_raises unit unit
                  (constant_env state_and_success)
                  (mkGymWrapper unit tt None []) tt)).
  - reflexivity.
  - discriminate.
Defined.

Lemma render_returns_last_image_witness :
  snd (render unit (fst (step_on (image_and_state (VFloat 1)))))
  = Some (mkArray uint8 [1; 1; 3] [255%float; 0%float; 0%float]).
Proof.
  apply (proj1 (render_returns_last_image unit unit
                  (constant_env (image_and_state (VFloat 1)))
                  (mkGymWrapper unit tt None []) tt)
           (mkArray uint8 [1; 1; 3] [255%float; 0%float; 0%float])).
  - repeat constructor; simpl; intuition discriminate.
  - now left.
Defined.

Lemma process_obs_idempotent_witness :
  exists self2,
    _process_obs unit (mkGymWrapper unit tt None [])
      [("success", mkArray float32 [] [1%float])]
    = (self2, [("success", mkArray float32 [] [1%float])],
       Ok (ObsArray (mkArray float32 [] [1%float]))).
Proof.
  exact (process_obs_idempotent unit (mkGymWrapper unit tt None [])
           (observation success_only) _ _ _ eq_refl).
Defined.


End gym_wrapper.
